(** * cleanup-nodes: removal of undeclared nodes from a k3s cluster

    A shallow embedding of [scripts/cleanup-nodes.py] and the properties of
    its reconciliation logic.

    The script is a single sequential pipeline: read [cluster.json], list the
    nodes of the cluster with [kubectl], subtract, resolve a management
    address for each extra node, ask for confirmation, then drain, delete and
    stop the agent of every extra node.  Everything outside the process (the
    file, the [kubectl] and [ssh] child processes, standard input) is a field
    of a [world] record; everything the process does to the outside (lines
    printed, child processes started, the prompt) is an [event] appended to a
    history.  Functions of the script that print or start processes are
    computations in a small state-and-exception monad over that history. *)

From Stdlib Require Import ZArith Ascii String List Lia.
From stdpp Require Import base tactics option list sorting countable
  gmap strings pretty.

#[local] Set Warnings "-register-all,-clear-no-such-hyp".

Local Open Scope string_scope.
Local Open Scope Z_scope.
Local Open Scope list_scope.

(** ** Python strings

    A [str] is modelled as a [string] whose characters are the code points
    0..255.  The four built-ins the script applies to node names and to the
    operator's answer are written out below. *)

Module PyStr.

(** [ch.isspace()] on code points below 256: the C0 separators, the space,
    NEL and the no-break space. *)
Definition is_space (c : ascii) : bool :=
  let n := N_of_ascii c in
  ((9 <=? n) && (n <=? 13) || (28 <=? n) && (n <=? 32)
   || (n =? 133) || (n =? 160))%N.

(** The value of a decimal digit; the only code points below 256 of Unicode
    category Nd are ['0'..'9']. *)
Definition digit_val (c : ascii) : option Z :=
  let n := N_of_ascii c in
  if ((48 <=? n) && (n <=? 57))%N then Some (Z.of_N n - 48) else None.

Fixpoint lstrip (s : string) : string :=
  match s with
  | String c r => if is_space c then lstrip r else s
  | EmptyString => EmptyString
  end.

Fixpoint rstrip (s : string) : string :=
  match s with
  | String c r =>
      match rstrip r with
      | EmptyString => if is_space c then EmptyString else String c EmptyString
      | r' => String c r'
      end
  | EmptyString => EmptyString
  end.

(** What the digit scanner of [int] has just read. *)
Inductive scanned := AtStart | AfterDigit | AfterUnderscore.

(** The digits of an integer literal: at least one digit, single
    underscores allowed between digits only. *)
Fixpoint scan_digits (acc : Z) (prev : scanned) (s : string) : option Z :=
  match s with
  | EmptyString =>
      match prev with AfterDigit => Some acc | _ => None end
  | String c r =>
      match digit_val c with
      | Some d => scan_digits (10 * acc + d) AfterDigit r
      | None =>
          if Ascii.eqb c "_" then
            match prev with
            | AfterDigit => scan_digits acc AfterUnderscore r
            | _ => None
            end
          else None
      end
  end.

(** [int(s)] for a [str] argument and the default base: surrounding
    whitespace is skipped, one sign is accepted, then the digits.  [None]
    stands for [ValueError].  (The interpreter's guard against literals of
    several thousand digits is not part of the model; a Kubernetes object
    name has at most 253 characters.) *)
Definition int (s : string) : option Z :=
  match rstrip (lstrip s) with
  | String "+" r => scan_digits 0 AtStart r
  | String "-" r => Z.opp <$> scan_digits 0 AtStart r
  | t => scan_digits 0 AtStart t
  end.

(** [str(n)], as used by an f-string field holding an [int]. *)
Definition str (n : Z) : string := pretty n.

(** [s.startswith(p)] *)
Definition startswith (p s : string) : bool := String.prefix p s.

(** [s[k:]] *)
Fixpoint slice_from (k : nat) (s : string) : string :=
  match k, s with
  | O, _ => s
  | S k', String _ r => slice_from k' r
  | S _, EmptyString => EmptyString
  end.

(** [ch.lower()] on code points below 256: the ASCII capitals and the
    Latin-1 capitals (all of 0xC0..0xDE except the multiplication sign) move
    up by 32; every other code point is its own lower case. *)
Definition lower_char (c : ascii) : ascii :=
  let n := N_of_ascii c in
  if ((65 <=? n) && (n <=? 90)
      || (192 <=? n) && (n <=? 222) && negb (n =? 215))%N
  then ascii_of_N (n + 32) else c.

Fixpoint lower (s : string) : string :=
  match s with
  | String c r => String (lower_char c) (lower r)
  | EmptyString => EmptyString
  end.

(** [sep.join(parts)] *)
Fixpoint join (sep : string) (parts : list string) : string :=
  match parts with
  | [] => ""
  | [p] => p
  | p :: ps => p +:+ sep +:+ join sep ps
  end.

End PyStr.

(** ** Values

    [json.load] and [json.loads] hand the script nested Python values.  The
    model keeps the shapes the script can tell apart: the three scalars, text,
    lists and dicts.  A dict is the list of its items; [json] keeps the last
    value of a repeated key, which [py_getitem] follows.  Numbers are the
    integral ones. *)

Inductive json :=
  | JNull
  | JBool (b : bool)
  | JNum (n : Z)
  | JStr (s : string)
  | JArr (items : list json)
  | JObj (fields : list (string * json)).

(** The exceptions the script can meet, and [SystemExit] which is not an
    [Exception] and passes through every [except] clause of the script. *)
Inductive exn :=
  | OSError | JSONDecodeError | KeyError | TypeError | AttributeError
  | ValueError | IndexError | CalledProcessError | EOFError.

Inductive raised :=
  | Exc (e : exn)
  | SystemExit (code : Z).

Global Instance exn_eq_dec : EqDecision exn.
Proof. solve_decision. Defined.

(** A member of a node set: whatever hashable value stood in a [name] field.
    [True] and [False] are the same set members as [1] and [0]. *)
Inductive name :=
  | Text (s : string)
  | Num (n : Z)
  | Null.

Global Instance name_eq_dec : EqDecision name.
Proof. solve_decision. Defined.

Global Instance name_countable : Countable name.
Proof.
  refine (inj_countable'
    (λ x, match x with Text s => inl s | Num n => inr (Some n) | Null => inr None end)
    (λ y, match y with inl s => Text s | inr (Some n) => Num n | inr None => Null end) _).
  by intros [].
Defined.

Definition is_text (x : name) : bool :=
  match x with Text _ => true | _ => false end.
Definition is_num (x : name) : bool :=
  match x with Num _ => true | _ => false end.

(** [hash(v)] succeeds on scalars and text and raises on lists and dicts. *)
Definition hashable (v : json) : exn + name :=
  match v with
  | JStr s => inr (Text s)
  | JNum n => inr (Num n)
  | JBool b => inr (Num (Z.b2z b))
  | JNull => inr Null
  | JArr _ | JObj _ => inl TypeError
  end.

(** [d.get(k)] on the items of a dict. *)
Fixpoint dict_get (k : string) (fields : list (string * json)) : option json :=
  match fields with
  | [] => None
  | (k', v) :: rest =>
      match dict_get k rest with
      | Some later => Some later
      | None => if decide (k' = k) then Some v else None
      end
  end.

(** [v[k]] for a text key [k]. *)
Definition py_getitem (v : json) (k : string) : exn + json :=
  match v with
  | JObj fields =>
      match dict_get k fields with Some x => inr x | None => inl KeyError end
  | _ => inl TypeError
  end.

(** [iter(v)]: the items of a list, the keys of a dict, the characters of a
    text; scalars are not iterable. *)
Definition py_iter (v : json) : exn + list json :=
  match v with
  | JArr items => inr items
  | JObj fields => inr (JStr <$> remove_dups (fields.*1))
  | JStr s => inr ((λ c, JStr (String c "")) <$> list_ascii_of_string s)
  | JNull | JBool _ | JNum _ => inl TypeError
  end.

(** ** The outside of the process *)

(** One constructor per [print] call of the script, holding the values
    formatted into the line. *)
Inductive msg :=
  | MListFailed (e : exn)            (* Failed to get k3s nodes: {e} *)
  | MParseFailed                     (* Failed to parse kubectl output *)
  | MWouldDrain (cmdline : string)   (* [DRY RUN] Would drain node: ... *)
  | MDraining (n : name)
  | MDrained (n : name)
  | MDrainFailed (n : name) (e : exn)
  | MWouldDelete (cmdline : string)  (* [DRY RUN] Would delete node: ... *)
  | MDeleting (n : name)
  | MDeleted (n : name)
  | MDeleteFailed (n : name) (e : exn)
  | MWouldRun (ip cmd : string)      (* [DRY RUN] Would run on {ip}: {cmd} *)
  | MRunning (ip cmd : string)
  | MRan (cmd : string)
  | MRunFailed (ip cmd : string) (e : exn)
  | MNoIp (n : name)                 (* Cannot determine IP for {node} *)
  | MTitle
  | MRule
  | MExpected (ns : list name)
  | MConfigFailed (e : exn)
  | MNoNodes                         (* No k3s nodes found or kubectl ... *)
  | MActual (ns : list name)
  | MNothingToDo                     (* All cluster nodes match ... *)
  | MToRemove (ns : list name)
  | MPlanHeader
  | MPlanNode (n : name) (ip : string)
  | MPlanDrain
  | MPlanDelete
  | MPlanStop (ip : string)
  | MPlanToken
  | MDryRunMode
  | MWarnRemove (count : nat)
  | MWarnDrain
  | MWarnDelete
  | MWarnStop
  | MCancelled                       (* Cleanup cancelled by user *)
  | MProcessing (n : name)
  | MDespiteDrain (n : name)
  | MDespiteDelete (n : name)
  | MStopping (n : name) (ip : string)
  | MSkipStop (n : name)             (* ..., skipping service stop *)
  | MCleaned (count : nat)           (* Successfully cleaned up {n} nodes! *)
  | MWouldClean (count : nat)        (* DRY RUN: Would clean up {n} nodes *)
  | MNextSteps
  | MNextVerify
  | MNextCheck.

(** What the process does that the outside can observe. *)
Inductive event :=
  | Print (m : msg)
  | OpenConfig                       (* open('cluster.json', 'r') *)
  | Spawn (argv : list string)       (* subprocess.run(argv, ...) *)
  | Ask.                             (* input(prompt) *)

(** What the outside answers.  A child process may answer differently each
    time it is started, so [child] sees the history of the run so far. *)
Record world := World {
  (** [load_cluster_config()]: the parsed file, or the exception of [open] or
      [json.load] *)
  cluster_json : exn + json;
  (** [kubectl get nodes -o json] followed by [json.loads] of its output: the
      exception of [subprocess.run], or the parsed standard output, [None]
      when it is not a JSON document *)
  kubectl_nodes : exn + option json;
  (** every other [subprocess.run(argv, check=True)]: [None] when the child
      exits with status 0, otherwise the exception raised *)
  child : list event → list string → option exn;
  (** the line typed at the prompt, [None] at end of input *)
  stdin_line : option string;
  (** [str(Path.home() / ".ssh" / "nuc_homelab_id_ed25519")] *)
  ssh_key : string;
}.

(** ** Computations

    A computation reads the history of the run so far and yields the events
    it adds together with a value or whatever it raised. *)

Definition M (A : Type) : Type := list event → list event * (raised + A).

Global Instance M_ret : MRet M := λ A a _, ([], inr a).
Global Instance M_bind : MBind M := λ A B k m past,
  match m past with
  | (es, inr a) => let '(es', r) := k a (past ++ es) in (es ++ es', r)
  | (es, inl x) => (es, inl x)
  end.

Definition emit (e : event) : M unit := λ _, ([e], inr tt).
Definition print (m : msg) : M unit := emit (Print m).
Definition raise {A} (e : exn) : M A := λ _, ([], inl (Exc e)).
Definition sys_exit {A} (code : Z) : M A := λ _, ([], inl (SystemExit code)).
Definition lift {A} (r : exn + A) : M A :=
  match r with inl e => raise e | inr a => mret a end.

(** [try: body except <classes>: handler]; [handler e] is [None] when [e]
    is of none of the classes. *)
Definition try_except {A} (body : M A) (handler : exn → option (M A)) : M A :=
  λ past,
    match body past with
    | (es, inl (Exc e)) =>
        match handler e with
        | Some h => let '(es', r) := h (past ++ es) in (es ++ es', r)
        | None => (es, inl (Exc e))
        end
    | out => out
    end.

(** [for x in xs: body] *)
Fixpoint for_each {A} (xs : list A) (body : A → M unit) : M unit :=
  match xs with
  | [] => mret tt
  | x :: rest => body x ;; for_each rest body
  end.

(** A loop that updates a local dict or set in place. *)
Fixpoint for_fold {A S} (xs : list A) (body : S → A → M S) (s : S) : M S :=
  match xs with
  | [] => mret s
  | x :: rest => s' ← body s x; for_fold rest body s'
  end.

(** Expressions that can raise but neither print nor start anything are
    written in the exception monad alone and [lift]ed where they occur. *)
Global Instance exn_ret : MRet (sum exn) := λ A a, inr a.
Global Instance exn_bind : MBind (sum exn) := λ A B k r,
  match r with inl e => inl e | inr a => k a end.

(** ** Sets of names *)

(** The order [sorted] uses among text (by code point) and among numbers. *)
Definition name_leb (x y : name) : bool :=
  match x, y with
  | Text a, Text b => String.leb a b
  | Num a, Num b => a <=? b
  | _, _ => true
  end.
Definition name_le (x y : name) : Prop := name_leb x y = true.

Global Instance name_le_dec x y : Decision (name_le x y).
Proof. unfold name_le. apply _. Defined.

(** [<] is defined within text and within numbers, not across them and not
    on [None]; sorting needs it as soon as there are two elements. *)
Definition comparable (l : list name) : bool :=
  bool_decide (length l ≤ 1)%nat || forallb is_text l || forallb is_num l.

(** [sorted(s)] for a set [s] *)
Definition sorted (s : gset name) : exn + list name :=
  let l := elements s in
  if comparable l then inr (merge_sort name_le l) else inl TypeError.

(** [{access(node) for node in nodes}] *)
Definition set_of (access : json → exn + json) (nodes : json) : exn + gset name :=
  items ← py_iter nodes;
  members ← mapM (λ node, v ← access node; hashable v) items;
  mret (list_to_set members).

(** Line 130: [{node['name'] for node in config['nodes']}] *)
Definition declared_names (config : json) : exn + gset name :=
  nodes ← py_getitem config "nodes";
  set_of (λ node, py_getitem node "name") nodes.

(** Line 33: [{node['metadata']['name'] for node in nodes_data['items']}] *)
Definition listed_names (nodes_data : json) : exn + gset name :=
  items ← py_getitem nodes_data "items";
  set_of (λ node, metadata ← py_getitem node "metadata";
                  py_getitem metadata "name") items.

(** [x.startswith(p)]: a method of [str] only. *)
Definition startswith_of (x : name) (p : string) : exn + bool :=
  match x with
  | Text s => inr (PyStr.startswith p s)
  | _ => inl AttributeError
  end.

(** [x[k:]] for a value already known to be text. *)
Definition slice_of (x : name) (k : nat) : string :=
  match x with Text s => PyStr.slice_from k s | _ => "" end.

Definition as_text (x : name) : option string :=
  match x with Text s => Some s | _ => None end.

(** ** The script *)

Section Script.

Context (W : world).

(** [subprocess.run(argv, check=True)] for the commands that change the
    cluster or a host. *)
Definition spawn (argv : list string) : M unit := λ past,
  ([Spawn argv],
   match child W past argv with None => inr tt | Some e => inl (Exc e) end).

(** The same for an argument list holding values of any type: a member that
    is not text is rejected before anything is started. *)
Definition subprocess_run (cmd : list name) : M unit :=
  match mapM as_text cmd with
  | Some argv => spawn argv
  | None => raise TypeError
  end.

(** [' '.join(cmd)] *)
Definition join_words (cmd : list name) : exn + string :=
  match mapM as_text cmd with
  | Some words => inr (PyStr.join " " words)
  | None => inl TypeError
  end.

(** [input(prompt)] *)
Definition input : M string :=
  emit Ask ;;
  match stdin_line W with Some l => mret l | None => raise EOFError end.

Definition load_cluster_config : M json :=
  emit OpenConfig ;; lift (cluster_json W).

Definition list_nodes_argv : list string :=
  ["kubectl"; "get"; "nodes"; "-o"; "json"].

Definition get_k3s_nodes : M (gset name) :=
  try_except
    (emit (Spawn list_nodes_argv) ;;
     stdout ← lift (kubectl_nodes W);
     nodes_data ← match stdout with
                  | Some d => mret d
                  | None => raise JSONDecodeError
                  end;
     lift (listed_names nodes_data))
    (λ e, match e with
          | CalledProcessError => Some (print (MListFailed e) ;; mret ∅)
          | JSONDecodeError => Some (print MParseFailed ;; mret ∅)
          | _ => None
          end).

Definition drain_node (node_name : name) (dry_run : bool) : M bool :=
  let cmd := [Text "kubectl"; Text "drain"; node_name;
              Text "--ignore-daemonsets"; Text "--delete-emptydir-data";
              Text "--force"] in
  if dry_run then
    line ← lift (join_words cmd);
    print (MWouldDrain line) ;;
    mret true
  else
    print (MDraining node_name) ;;
    try_except
      (subprocess_run cmd ;;
       print (MDrained node_name) ;;
       mret true)
      (λ e, match e with
            | CalledProcessError =>
                Some (print (MDrainFailed node_name e) ;; mret false)
            | _ => None
            end).

Definition delete_node (node_name : name) (dry_run : bool) : M bool :=
  let cmd := [Text "kubectl"; Text "delete"; Text "node"; node_name] in
  if dry_run then
    line ← lift (join_words cmd);
    print (MWouldDelete line) ;;
    mret true
  else
    print (MDeleting node_name) ;;
    try_except
      (subprocess_run cmd ;;
       print (MDeleted node_name) ;;
       mret true)
      (λ e, match e with
            | CalledProcessError =>
                Some (print (MDeleteFailed node_name e) ;; mret false)
            | _ => None
            end).

Definition stop_commands : list string :=
  ["sudo systemctl stop k3s-agent";
   "sudo systemctl disable k3s-agent";
   "sudo rm -f /etc/rancher/k3s/agent-token"].

Definition ssh_argv (node_ip cmd : string) : list string :=
  ["ssh"; "-i"; ssh_key W; "-o"; "ConnectTimeout=10";
   "-o"; "StrictHostKeyChecking=no"; "satya@" +:+ node_ip; cmd].

Definition stop_k3s_on_node (node_ip : string) (dry_run : bool) : M unit :=
  for_each stop_commands (λ cmd,
    let ssh_cmd := ssh_argv node_ip cmd in
    if dry_run then
      print (MWouldRun node_ip cmd)
    else
      print (MRunning node_ip cmd) ;;
      try_except
        (spawn ssh_cmd ;;
         print (MRan cmd))
        (λ e, match e with
              | CalledProcessError => Some (print (MRunFailed node_ip cmd e))
              | _ => None
              end)).

Definition base_ip : string := "192.168.1.".

(** Lines 109-114: the body of the loop of [get_node_ip] on one node; the
    loop index of [enumerate] is not used by it and is left out. *)
Definition get_node_ip_step (ip_mapping : gmap name string) (node : name) :
    M (gmap name string) :=
  named ← lift (startswith_of node "nuc");
  if (named : bool) then
    try_except
      (node_num ← match PyStr.int (slice_of node 3) with
                  | Some n => mret n
                  | None => raise ValueError
                  end;
       mret (<[node := base_ip +:+ PyStr.str (140 + node_num)]> ip_mapping))
      (λ e, match e with
            | ValueError | IndexError =>
                Some (print (MNoIp node) ;; mret ip_mapping)
            | _ => None
            end)
  else mret ip_mapping.

Definition get_node_ip (removed_nodes : gset name) : M (gmap name string) :=
  nodes ← lift (sorted removed_nodes);
  for_fold nodes get_node_ip_step ∅.

(** Lines 156-164: the plan shown before anything is done. *)
Definition show_plan (nodes_to_remove : gset name)
    (node_ips : gmap name string) : M unit :=
  print MPlanHeader ;;
  nodes ← lift (sorted nodes_to_remove);
  for_each nodes (λ node_name,
    let node_ip := default "IP unknown" (node_ips !! node_name) in
    print (MPlanNode node_name node_ip) ;;
    print MPlanDrain ;;
    print MPlanDelete ;;
    print (MPlanStop node_ip) ;;
    print MPlanToken).

(** Lines 180-196: the three steps on one node. *)
Definition process_node (node_ips : gmap name string) (dry_run : bool)
    (node_name : name) : M unit :=
  print (MProcessing node_name) ;;
  drained ← drain_node node_name dry_run;
  (if negb drained then print (MDespiteDrain node_name) else mret tt) ;;
  deleted ← delete_node node_name dry_run;
  (if negb deleted then print (MDespiteDelete node_name) else mret tt) ;;
  match node_ips !! node_name with
  | Some node_ip =>
      print (MStopping node_name node_ip) ;;
      stop_k3s_on_node node_ip dry_run
  | None => print (MSkipStop node_name)
  end.

(** Lines 178-205: the loop over the nodes and the closing summary. *)
Definition process_nodes (nodes_to_remove : gset name)
    (node_ips : gmap name string) (dry_run : bool) : M unit :=
  nodes ← lift (sorted nodes_to_remove);
  for_each nodes (process_node node_ips dry_run) ;;
  (if negb dry_run then print (MCleaned (size nodes_to_remove))
   else print (MWouldClean (size nodes_to_remove))) ;;
  print MNextSteps ;;
  print MNextVerify ;;
  print MNextCheck.

(** Lines 127-134: the expected nodes, or exit status 1. *)
Definition expected_from_config : M (gset name) :=
  try_except
    (config ← load_cluster_config;
     expected_nodes ← lift (declared_names config);
     shown ← lift (sorted expected_nodes);
     print (MExpected shown) ;;
     mret expected_nodes)
    (λ e, Some (print (MConfigFailed e) ;; sys_exit 1)).

(** Lines 144-205: everything after the two node sets are known. *)
Definition reconcile (expected_nodes actual_nodes : gset name)
    (dry_run : bool) : M unit :=
  let nodes_to_remove := actual_nodes ∖ expected_nodes in
  if decide (nodes_to_remove = ∅) then
    print MNothingToDo
  else
    shown ← lift (sorted nodes_to_remove);
    print (MToRemove shown) ;;
    node_ips ← get_node_ip nodes_to_remove;
    show_plan nodes_to_remove node_ips ;;
    if dry_run then
      print MDryRunMode ;;
      process_nodes nodes_to_remove node_ips dry_run
    else
      print (MWarnRemove (size nodes_to_remove)) ;;
      print MWarnDrain ;;
      print MWarnDelete ;;
      print MWarnStop ;;
      response ← input;
      if decide (PyStr.lower response ≠ "y") then
        print MCancelled
      else
        process_nodes nodes_to_remove node_ips dry_run.

(** [main()], with [args.dry_run] as its argument. *)
Definition main (dry_run : bool) : M unit :=
  print MTitle ;;
  print MRule ;;
  expected_nodes ← expected_from_config;
  actual_nodes ← get_k3s_nodes;
  if decide (actual_nodes = ∅) then
    print MNoNodes ;;
    sys_exit 1
  else
    shown ← lift (sorted actual_nodes);
    print (MActual shown) ;;
    reconcile expected_nodes actual_nodes dry_run.

End Script.

(** How the interpreter ends: [main] returning ends the process with status
    0, [sys.exit(c)] with status [c], and an exception nobody catches with a
    traceback and status 1. *)
Inductive ending :=
  | Returned
  | Exited (code : Z)
  | Traceback (e : exn).

Definition exit_code (r : ending) : Z :=
  match r with
  | Returned => 0
  | Exited c => c
  | Traceback _ => 1
  end.

(** One invocation of the script: the events in order and the ending. *)
Definition run (W : world) (dry_run : bool) : list event * ending :=
  let '(es, r) := main W dry_run [] in
  (es, match r with
       | inr _ => Returned
       | inl (SystemExit c) => Exited c
       | inl (Exc e) => Traceback e
       end).

(** ** Sample worlds *)

Definition node_record (n : string) : json := JObj [("name", JStr n)].
Definition config_doc (ns : list string) : json :=
  JObj [("nodes", JArr (node_record <$> ns))].
Definition node_item (n : string) : json :=
  JObj [("kind", JStr "Node"); ("metadata", JObj [("name", JStr n)])].
Definition nodes_doc (ns : list string) : json :=
  JObj [("kind", JStr "List"); ("items", JArr (node_item <$> ns))].

(** A world in which every child process succeeds. *)
Definition calm (expected actual : list string) (answer : option string) : world :=
  {| cluster_json := inr (config_doc expected);
     kubectl_nodes := inr (Some (nodes_doc actual));
     child := λ _ _, None;
     stdin_line := answer;
     ssh_key := "/root/.ssh/nuc_homelab_id_ed25519" |}.

(** ** Vocabulary of the properties *)

(** A set of node names, as a set of values. *)
Definition texts (S : gset string) : gset name := set_map Text S.

(** The membership file of [W] declares exactly the names [E]. *)
Definition declares (W : world) (E : gset string) : Prop :=
  ∃ config, cluster_json W = inr config ∧ declared_names config = inr (texts E).

(** The cluster of [W] lists exactly the names [A]. *)
Definition lists (W : world) (A : gset string) : Prop :=
  ∃ doc, kubectl_nodes W = inr (Some doc) ∧ listed_names doc = inr (texts A).


(** Starting any process other than the read-only listing. *)
Definition mutating (e : event) : bool :=
  match e with
  | Spawn argv => bool_decide (argv ≠ list_nodes_argv)
  | _ => false
  end.

Definition drain_argv (s : string) : list string :=
  ["kubectl"; "drain"; s; "--ignore-daemonsets"; "--delete-emptydir-data";
   "--force"].
Definition delete_argv (s : string) : list string :=
  ["kubectl"; "delete"; "node"; s].

(** [numeral d v]: [d] is a non-empty run of decimal digits that reads [v]. *)
Inductive numeral : string → Z → Prop :=
  | numeral_digit c v :
      PyStr.digit_val c = Some v → numeral (String c "") v
  | numeral_more d v c w :
      numeral d v → PyStr.digit_val c = Some w →
      numeral (d +:+ String c "") (10 * v + w).

(** A run of whitespace, possibly empty. *)
Fixpoint blank (s : string) : bool :=
  match s with
  | String c r => PyStr.is_space c && blank r
  | EmptyString => true
  end.

(** [literal t z]: [t] is an integer literal in the plain form: optional
    padding, an optional sign, a numeral, optional padding. *)
Inductive literal : string → Z → Prop :=
  | literal_plain l d r v :
      blank l = true → blank r = true → numeral d v →
      literal (l +:+ d +:+ r) v
  | literal_plus l d r v :
      blank l = true → blank r = true → numeral d v →
      literal (l +:+ "+" +:+ d +:+ r) v
  | literal_minus l d r v :
      blank l = true → blank r = true → numeral d v →
      literal (l +:+ "-" +:+ d +:+ r) (- v).

(** The address the resolver derives from one name, if any: the body of the
    loop of [get_node_ip] on a text name. *)
Definition resolve (s : string) : option string :=
  if PyStr.startswith "nuc" s then
    (λ n, base_ip +:+ PyStr.str (140 + n)) <$> PyStr.int (PyStr.slice_from 3 s)
  else None.

(** *** Two logics for the monad *)

(** [hoare P Q X m]: whatever has happened before, every event [m] adds
    satisfies [P], a value it returns satisfies [Q] and whatever it raises
    satisfies [X]. *)
Definition hoare {A} (P : event → Prop) (Q : A → Prop) (X : raised → Prop)
    (m : M A) : Prop :=
  ∀ past,
    Forall P (m past).1 ∧
    match (m past).2 with inr a => Q a | inl x => X x end.

(** [total m Φ]: whatever has happened before, [m] returns, and the events
    it adds and the value it returns satisfy [Φ]. *)
Definition total {A} (m : M A) (Φ : list event → A → Prop) : Prop :=
  ∀ past, ∃ es a, m past = (es, inr a) ∧ Φ es a.

(** *** Kinds of events *)

(** An event that touches neither the cluster nor a host, and is not the
    announcement of a finished clean-up. *)
Definition quiet (e : event) : Prop :=
  mutating e = false ∧ ∀ count, e ≠ Print (MCleaned count).

(** An event of the part of a run that reads the two node sets. *)
Definition reading (e : event) : bool :=
  match e with
  | Print (MTitle | MRule | MExpected _ | MConfigFailed _ | MListFailed _
          | MParseFailed | MNoNodes) => true
  | OpenConfig => true
  | Spawn argv => bool_decide (argv = list_nodes_argv)
  | _ => false
  end.

Definition is_no_ip (e : event) : Prop := ∃ n, e = Print (MNoIp n).

(** *** Helpers for the built-ins, the comprehensions and the resolver *)

Global Instance Text_inj : Inj (=) (=) Text.
Proof. by intros ?? [=]. Qed.

(** [solid s]: no character of [s] is whitespace. *)
Fixpoint solid (s : string) : bool :=
  match s with
  | String c r => negb (PyStr.is_space c) && solid r
  | EmptyString => true
  end.

(** The member a comprehension adds for one item. *)
Definition member_of (access : json → exn + json) (node : json) : exn + name :=
  v ← access node; hashable v.

(** One pass of the loop of [get_node_ip], as a function on the mapping. *)
Definition resolve_step (ip_mapping : gmap name string) (node : name) :
    gmap name string :=
  match node with
  | Text s =>
      match resolve s with
      | Some ip => <[node := ip]> ip_mapping
      | None => ip_mapping
      end
  | _ => ip_mapping
  end.


(** *** The shape of a run *)

(** The first six events of a run whose two node sets could be read. *)
Definition prelude (expected actual : list name) : list event :=
  [Print MTitle; Print MRule; OpenConfig; Print (MExpected expected);
   Spawn list_nodes_argv; Print (MActual actual)].

(** The four lines of warning before the prompt. *)
Definition warning (count : nat) : list event :=
  [Print (MWarnRemove count); Print MWarnDrain; Print MWarnDelete;
   Print MWarnStop].

(** The answer lets a run that is not a dry run go on. *)
Definition affirmative (W : world) : Prop :=
  ∃ l, stdin_line W = Some l ∧ PyStr.lower l = "y".

(** The events of a reconciliation up to the loop: the removal set, the
    warnings of the resolver, the plan, and the banner or the prompt. *)
Definition before_loop (dry_run : bool) (count : nat) (es : list event) : Prop :=
  ∃ shown plan,
    Forall quiet plan
    ∧ es = Print (MToRemove shown) :: plan ++
           (if dry_run then [Print MDryRunMode] else warning count ++ [Ask]).








(** *** Worlds of the examples *)

(** A world without a readable membership file. *)
Definition missing_file : world :=
  {| cluster_json := inl OSError;
     kubectl_nodes := inr (Some (nodes_doc ["nuc1"]));
     child := λ _ _, None;
     stdin_line := Some "y";
     ssh_key := "/root/.ssh/nuc_homelab_id_ed25519" |}.

(** A world whose cluster has two nodes too many and in which every drain of
    [nuc3] fails. *)
Definition stubborn (answer : option string) : world :=
  {| cluster_json := inr (config_doc ["nuc1"; "nuc2"]);
     kubectl_nodes := inr (Some (nodes_doc ["nuc3"; "nuc1"; "gpu"; "nuc2"]));
     child := λ _ argv,
       if bool_decide (argv = drain_argv "nuc3") then Some CalledProcessError
       else None;
     stdin_line := answer;
     ssh_key := "/home/satya/.ssh/nuc_homelab_id_ed25519" |}.

(** A world whose listing answers with an empty JSON object. *)
Definition shapeless : world :=
  {| cluster_json := inr (config_doc ["nuc1"; "nuc2"]);
     kubectl_nodes := inr (Some (JObj []));
     child := λ _ _, None;
     stdin_line := Some "y";
     ssh_key := "/home/satya/.ssh/nuc_homelab_id_ed25519" |}.

(** A world whose listing exits with a failure status. *)
Definition unreachable : world :=
  {| cluster_json := inr (config_doc ["nuc1"; "nuc2"]);
     kubectl_nodes := inl CalledProcessError;
     child := λ _ _, None;
     stdin_line := Some "y";
     ssh_key := "/home/satya/.ssh/nuc_homelab_id_ed25519" |}.

(** *** Further vocabulary *)

(** [outcome m Φ]: whatever has happened before, the events [m] adds and
    the way it ends, by a value or by raising, satisfy [Φ]. *)
Definition outcome {A} (m : M A) (Φ : list event → raised + A → Prop) : Prop :=
  ∀ past, Φ (m past).1 (m past).2.

(** The argument lists of the processes a run starts, in order. *)
Definition spawned (es : list event) : list (list string) :=
  omap (λ e, match e with Spawn argv => Some argv | _ => None end) es.

(** An event that starts no process. *)
Definition silent (e : event) : Prop := ∀ argv, e ≠ Spawn argv.


(** An event that starts nothing but the listing, the drain or the deletion
    of a node of [R], or a remote command on the address of a node of
    [R]. *)
Definition confined (W : world) (R : gset string) (e : event) : Prop :=
  ∀ argv, e = Spawn argv →
    argv = list_nodes_argv
    ∨ ∃ s, s ∈ R
           ∧ (argv = drain_argv s ∨ argv = delete_argv s
              ∨ ∃ node_ip cmd,
                  resolve s = Some node_ip ∧ cmd ∈ stop_commands
                  ∧ argv = ssh_argv W node_ip cmd).

(** The listing of [W] raises [e]: the call itself does, or its output is
    JSON that has not the shape of a node list. *)
Definition listing_raises (W : world) (e : exn) : Prop :=
  kubectl_nodes W = inl e
  ∨ ∃ doc, kubectl_nodes W = inr (Some doc) ∧ listed_names doc = inl e.





(** [sorted] compares any two text names, and any two numbers. *)
Global Instance name_le_total : Total name_le.
Proof.
  intros [a|a|] [b|b|]; unfold name_le; simpl; auto.
  - apply String.leb_total.
  - destruct (Z.leb_spec a b); [by left|right]. apply Z.leb_le. lia.
Qed.

(** A world like [stubborn] in which no child can be started once the
    listing is done. *)
Definition jammed (answer : option string) : world :=
  {| cluster_json := inr (config_doc ["nuc1"; "nuc2"]);
     kubectl_nodes := inr (Some (nodes_doc ["nuc3"; "nuc1"; "gpu"; "nuc2"]));
     child := λ _ _, Some OSError;
     stdin_line := answer;
     ssh_key := "/home/satya/.ssh/nuc_homelab_id_ed25519" |}.

(** ** The built-ins on sample inputs *)

Example int_plain : PyStr.int "3" = Some 3.
Proof. reflexivity. Qed.
Example int_padded_signed : PyStr.int "  -5 " = Some (-5).
Proof. reflexivity. Qed.
Example int_grouped : PyStr.int "1_000" = Some 1000.
Proof. reflexivity. Qed.
Example int_rejects : map PyStr.int [""; "+"; "_1"; "1__0"; "1_"; "- 5"; "3a"; "0x10"]
  = [None; None; None; None; None; None; None; None].
Proof. reflexivity. Qed.
Example str_neg : PyStr.str (-60) = "-60".
Proof. reflexivity. Qed.
Example lower_Y : map PyStr.lower ["Y"; "y"; "YES"; " y"] = ["y"; "y"; "yes"; " y"].
Proof. reflexivity. Qed.

(** ** Facts about the built-ins *)

Section PyStrFacts.
Import PyStr.

Lemma digit_val_range c v : digit_val c = Some v → 0 ≤ v ≤ 9.
Proof.
  unfold digit_val. case_match eqn:Hc; [|done]. intros [= <-].
  apply andb_prop in Hc as [?%N.leb_le ?%N.leb_le]. lia.
Qed.

Lemma digit_not_space c v : digit_val c = Some v → is_space c = false.
Proof. by destruct c as [[] [] [] [] [] [] [] []]. Qed.

Lemma digit_not_sign c v :
  digit_val c = Some v → c ≠ "+"%char ∧ c ≠ "-"%char.
Proof. by split; intros ->. Qed.

Lemma digit_val_pretty (x : N) :
  (x < 10)%N → digit_val (pretty_N_char x) = Some (Z.of_N x).
Proof.
  intros Hx. destruct x as [|p]; [done|].
  repeat (destruct p as [p|p|]; try done; try lia).
Qed.

(** *** Numerals *)

Lemma append_cons c (s t : string) : String c s +:+ t = String c (s +:+ t).
Proof. done. Qed.

Lemma append_nil_r (s : string) : s +:+ "" = s.
Proof. induction s as [|a s IH]; [done|]. by rewrite append_cons, IH. Qed.

Lemma append_assoc (s t u : string) : (s +:+ t) +:+ u = s +:+ t +:+ u.
Proof. induction s as [|a s IH]; [done|]. by rewrite !append_cons, IH. Qed.

Lemma length_append (s t : string) :
  String.length (s +:+ t) = (String.length s + String.length t)%nat.
Proof. induction s as [|a s IH]; [done|]. rewrite append_cons. simpl. by rewrite IH. Qed.

Lemma numeral_nonneg d v : numeral d v → 0 ≤ v.
Proof.
  induction 1 as [c v Hc|d v c w _ IH Hc]; apply digit_val_range in Hc; lia.
Qed.

Lemma app_String_assoc (s t : string) c :
  (s +:+ String c "") +:+ t = s +:+ String c t.
Proof. induction s as [|a s IH]; [done|]. by rewrite !append_cons, IH. Qed.

(** The scanner reads a numeral as its value. *)
Lemma scan_numeral d v :
  numeral d v →
  ∀ acc prev rest,
    scan_digits acc prev (d +:+ rest)
    = scan_digits (10 ^ Z.of_nat (String.length d) * acc + v) AfterDigit rest.
Proof.
  induction 1 as [c v Hc|d v c w Hd IH Hc]; intros acc prev rest.
  - rewrite append_cons. simpl. rewrite Hc. f_equal; lia.
  - rewrite app_String_assoc, IH. simpl. rewrite Hc. f_equal.
    rewrite length_append. simpl String.length.
    rewrite Nat2Z.inj_add, Z.pow_add_r by lia. lia.
Qed.

Lemma numeral_head d v :
  numeral d v → ∃ c r w, d = String c r ∧ digit_val c = Some w.
Proof.
  induction 1 as [c v Hc|d v c w _ (c' & r & w' & -> & Hc') Hc]; eauto.
Qed.

(** Stripping a padded word whose first and last characters are not
    whitespace gives the word back. *)
Lemma lstrip_blank l t : blank l = true → lstrip (l +:+ t) = lstrip t.
Proof.
  induction l as [|c l IH]; [done|]. rewrite append_cons. simpl.
  intros [-> ?]%andb_prop. auto.
Qed.

Lemma rstrip_blank r : blank r = true → rstrip r = "".
Proof.
  induction r as [|c r IH]; simpl; [done|].
  intros [-> ?]%andb_prop. by rewrite IH.
Qed.

Lemma rstrip_solid t r : solid t = true → blank r = true → rstrip (t +:+ r) = t.
Proof.
  intros Ht Hr. induction t as [|c t IH].
  - by apply rstrip_blank.
  - simpl in Ht. apply andb_prop in Ht as [Hc%negb_true_iff Ht].
    rewrite append_cons. simpl. rewrite IH by done. rewrite Hc. by destruct t.
Qed.

Lemma solid_app s t : solid (s +:+ t) = solid s && solid t.
Proof.
  induction s as [|c s IH]; [done|]. rewrite append_cons. simpl.
  by rewrite IH, andb_assoc.
Qed.

Lemma numeral_solid d v : numeral d v → solid d = true.
Proof.
  induction 1 as [c v Hc|d v c w _ IH Hc]; simpl.
  - by rewrite (digit_not_space _ _ Hc).
  - rewrite solid_app, IH. simpl. by rewrite (digit_not_space _ _ Hc).
Qed.

Lemma strip_padded l t r :
  blank l = true → blank r = true → t ≠ "" → solid t = true →
  rstrip (lstrip (l +:+ t +:+ r)) = t.
Proof.
  intros Hl Hr Hne Ht. rewrite lstrip_blank by done.
  destruct t as [|c t]; [done|].
  rewrite append_cons. pose proof Ht as Ht'. simpl in Ht' |- *.
  apply andb_prop in Ht' as [Hc%negb_true_iff _]. rewrite Hc.
  rewrite <-append_cons. by apply rstrip_solid.
Qed.

Lemma scan_numeral_all d v : numeral d v → scan_digits 0 AtStart d = Some v.
Proof.
  intros Hd. rewrite <-(append_nil_r d) at 1.
  rewrite (scan_numeral _ _ Hd). simpl. f_equal. lia.
Qed.

(** [int] reads every literal as its value. *)
Lemma int_literal t z : literal t z → int t = Some z.
Proof.
  unfold int.
  destruct 1 as [l d r v Hl Hr Hd|l d r v Hl Hr Hd|l d r v Hl Hr Hd].
  - destruct (numeral_head _ _ Hd) as (c & d' & w & Hd' & Hc).
    rewrite strip_padded; [|by subst; eauto using numeral_solid..].
    destruct (digit_not_sign _ _ Hc) as [??].
    pose proof (scan_numeral_all _ _ Hd) as Hs. rewrite Hd' in Hs |- *.
    by repeat case_match; simplify_eq.
  - rewrite <-(append_assoc "+" d r).
    rewrite strip_padded; [|done..|]; last first.
    { rewrite append_cons. simpl. eauto using numeral_solid. }
    change ("+" +:+ d) with (String "+" d). cbv iota beta.
    apply (scan_numeral_all _ _ Hd).
  - rewrite <-(append_assoc "-" d r).
    rewrite strip_padded; [|done..|]; last first.
    { rewrite append_cons. simpl. eauto using numeral_solid. }
    change ("-" +:+ d) with (String "-" d). cbv iota beta.
    by rewrite (scan_numeral_all _ _ Hd).
Qed.

(** *** Printing and reading back *)

(** The digits [str] prints for a positive number form a numeral of it. *)
Lemma pretty_N_go_numeral (x : N) :
  (0 < x)%N → ∃ d, numeral d (Z.of_N x) ∧ ∀ s, pretty_N_go x s = d +:+ s.
Proof.
  induction (N.lt_wf_0 x) as [x _ IH]; intros Hx.
  pose proof (N.div_mod x 10 ltac:(lia)) as Hdm.
  pose proof (N.mod_lt x 10 ltac:(lia)) as Hlt.
  assert (x `div` 10 = 0 ∨ 0 < x `div` 10)%N as [Hq|Hq] by lia.
  - exists (String (pretty_N_char (x `mod` 10)) ""). split.
    + apply numeral_digit. rewrite digit_val_pretty by done.
      f_equal. lia.
    + intros s. rewrite pretty_N_go_step by done. by rewrite Hq.
  - destruct (IH (x `div` 10)%N) as (d & Hd & Heq); [by apply N.div_lt|done|].
    exists (d +:+ String (pretty_N_char (x `mod` 10)) ""). split.
    + replace (Z.of_N x) with (10 * Z.of_N (x `div` 10) + Z.of_N (x `mod` 10)).
      { apply numeral_more; [done|]. by apply digit_val_pretty. }
      lia.
    + intros s. rewrite pretty_N_go_step by done.
      by rewrite Heq, app_String_assoc.
Qed.

Lemma str_numeral (n : Z) : 0 ≤ n → numeral (str n) n.
Proof.
  intros Hn. unfold str, pretty, pretty_Z. destruct n as [|p|p]; [|  |lia].
  - by apply numeral_digit.
  - unfold pretty, pretty_positive, pretty, pretty_N.
    destruct (pretty_N_go_numeral (N.pos p)) as (d & Hd & Heq); [lia|].
    rewrite decide_False by done. by rewrite Heq, append_nil_r.
Qed.

(** [int(str(n)) == n] *)
Lemma str_literal (n : Z) : literal (str n) n.
Proof.
  destruct (decide (0 ≤ n)) as [Hn|Hn].
  - rewrite <-(append_nil_r (str n)).
    by apply (literal_plain "" (str n) ""), str_numeral.
  - destruct n as [|p|p]; [lia..|].
    change (str (Z.neg p)) with ("" +:+ "-" +:+ str (Z.pos p)).
    rewrite <-(append_nil_r (str (Z.pos p))).
    by apply (literal_minus "" _ "" (Z.pos p)), str_numeral.
Qed.

Lemma int_str (n : Z) : int (str n) = Some n.
Proof. apply int_literal, str_literal. Qed.

(** *** Lower case *)

Lemma lower_char_y c : lower_char c = "y"%char ↔ c = "y"%char ∨ c = "Y"%char.
Proof.
  destruct c as [[] [] [] [] [] [] [] []]; vm_compute;
    (split; [intros H; (discriminate H || auto)
            |intros [H|H]; (discriminate H || done)]).
Qed.

(** [answer.lower() == 'y'] holds of exactly two answers. *)
Lemma lower_y (l : string) : lower l = "y" ↔ l = "y" ∨ l = "Y".
Proof.
  destruct l as [|c [|c' l]]; simpl.
  - split; [done|by intros [|]].
  - split.
    + intros [= Hc]. apply lower_char_y in Hc as [->| ->]; auto.
    + intros [[= ->]|[= ->]]; done.
  - split; [done|by intros [|]].
Qed.

End PyStrFacts.

(** ** A logic of what a computation may do *)

Section Logic.
Context (P : event → Prop) (X : raised → Prop).

Lemma hoare_ret {A} (Q : A → Prop) a : Q a → hoare P Q X (mret a).
Proof. intros ? past. by split. Qed.

Lemma hoare_bind {A B} (Q1 : A → Prop) (Q : B → Prop) (m : M A) (k : A → M B) :
  hoare P Q1 X m → (∀ a, Q1 a → hoare P Q X (k a)) → hoare P Q X (m ≫= k).
Proof.
  intros Hm Hk past. specialize (Hm past).
  unfold mbind, M_bind. destruct (m past) as [es [x|a]]; simpl in *; [done|].
  destruct Hm as [Hes Ha]. specialize (Hk a Ha (past ++ es)).
  destruct (k a (past ++ es)) as [es' r]; simpl in *.
  destruct Hk. split; [by apply Forall_app|done].
Qed.

Lemma hoare_emit (Q : unit → Prop) e : P e → Q tt → hoare P Q X (emit e).
Proof. intros ?? past. split; [by repeat constructor|done]. Qed.

Lemma hoare_print (Q : unit → Prop) m :
  P (Print m) → Q tt → hoare P Q X (print m).
Proof. apply hoare_emit. Qed.

Lemma hoare_raise {A} (Q : A → Prop) e : X (Exc e) → hoare P Q X (raise e).
Proof. intros ? past. by split. Qed.

Lemma hoare_sys_exit {A} (Q : A → Prop) c :
  X (SystemExit c) → hoare P Q X (sys_exit c).
Proof. intros ? past. by split. Qed.

Lemma hoare_lift {A} (Q : A → Prop) (r : exn + A) :
  (∀ a, r = inr a → Q a) → (∀ e, r = inl e → X (Exc e)) → hoare P Q X (lift r).
Proof. intros Ha He past. destruct r; (split; [done|]); simpl; auto. Qed.

Lemma hoare_for_each {A} (Q : unit → Prop) (xs : list A) body :
  (∀ x, x ∈ xs → hoare P (λ _, True) X (body x)) → Q tt →
  hoare P Q X (for_each xs body).
Proof.
  intros Hbody HQ. induction xs as [|x xs IH]; simpl.
  - by apply hoare_ret.
  - eapply hoare_bind; [apply Hbody; by left|].
    intros _ _. apply IH. intros y ?. apply Hbody. by right.
Qed.

Lemma hoare_for_fold {A S} (I Q : S → Prop) (xs : list A) body s :
  I s → (∀ s x, x ∈ xs → I s → hoare P I X (body s x)) → (∀ s, I s → Q s) →
  hoare P Q X (for_fold xs body s).
Proof.
  intros Hs Hbody HQ. revert s Hs. induction xs as [|x xs IH]; intros s Hs; simpl.
  - apply hoare_ret; auto.
  - eapply hoare_bind; [apply Hbody; [by left|done]|].
    intros s' Hs'. apply IH; [|done]. intros ????. apply Hbody; [by right|done].
Qed.

End Logic.

Lemma hoare_try_except {A} P (Q : A → Prop) (X' X : raised → Prop) body handler :
  hoare P Q X' body →
  (∀ e, X' (Exc e) →
     match handler e with
     | Some h => hoare P Q X h
     | None => X (Exc e)
     end) →
  (∀ c, X' (SystemExit c) → X (SystemExit c)) →
  hoare P Q X (try_except body handler).
Proof.
  intros Hbody Hh Hexit past. specialize (Hbody past). unfold try_except.
  destruct (body past) as [es [[e|c]|a]]; simpl in *; destruct Hbody as [Hes Hr].
  - specialize (Hh e Hr). destruct (handler e) as [h|]; [|by split].
    specialize (Hh (past ++ es)). destruct (h (past ++ es)) as [es' r]; simpl in *.
    destruct Hh. split; [by apply Forall_app|done].
  - split; [done|]. by apply Hexit.
  - by split.
Qed.

Lemma hoare_weaken {A} (P P' : event → Prop) (Q Q' : A → Prop)
    (X X' : raised → Prop) m :
  hoare P Q X m →
  (∀ e, P e → P' e) → (∀ a, Q a → Q' a) → (∀ x, X x → X' x) →
  hoare P' Q' X' m.
Proof.
  intros Hm HP HQ HX past. destruct (Hm past) as [Hes Hr]. split.
  - eapply Forall_impl; eauto.
  - destruct (m past).2; auto.
Qed.

(** A fact about the values a computation can return strengthens its
    postcondition. *)
Lemma hoare_returns {A} P (Q Q' : A → Prop) X m :
  hoare P Q X m → (∀ past es a, m past = (es, inr a) → Q' a) →
  hoare P (λ a, Q a ∧ Q' a) X m.
Proof.
  intros Hm Hret past. destruct (Hm past) as [Hes Hr]. split; [done|].
  destruct (m past) as [es [x|a]] eqn:Heq; simpl in *; eauto.
Qed.

(** ** Runs that touch nothing *)

Lemma reading_quiet e : reading e = true → quiet e.
Proof.
  destruct e as [[]| |argv|]; try done.
  simpl. intros ->%bool_decide_eq_true. by split.
Qed.

Lemma hoare_seq {A B} P (Q : B → Prop) X (m : M A) (k : A → M B) :
  hoare P (λ _, True) X m → (∀ a, hoare P Q X (k a)) → hoare P Q X (m ≫= k).
Proof. intros Hm Hk. eapply hoare_bind; [exact Hm|auto]. Qed.

Lemma quiet_print m : (∀ count, m ≠ MCleaned count) → quiet (Print m).
Proof. intros Hm. split; [done|]. intros count [= ->]. by eapply Hm. Qed.

Ltac quiet_event :=
  first [ done
        | apply quiet_print; by intros ?
        | by split ].

Create HintDb quiet discriminated.

(** One step of a proof by the rules above, chosen by the shape of the
    computation. *)
Ltac hoare_step :=
  lazymatch goal with
  | |- ∀ _, _ => intro
  | |- hoare _ _ _ (mret _) => apply hoare_ret; done
  | |- hoare _ _ _ (print _) => apply hoare_print; [quiet_event|done]
  | |- hoare _ _ _ (emit _) => apply hoare_emit; [quiet_event|done]
  | |- hoare _ _ _ (raise _) => apply hoare_raise; done
  | |- hoare _ _ _ (sys_exit _) => apply hoare_sys_exit; done
  | |- hoare _ _ _ (lift _) => apply hoare_lift; done
  | |- hoare _ _ _ (input _ ≫= _) => fail "the answer matters"
  | |- hoare _ _ _ (_ ≫= _) => apply hoare_seq
  | |- hoare _ _ _ (for_each _ _) => apply hoare_for_each
  | |- hoare _ _ _ (match _ with _ => _ end) => case_match; simplify_eq
  | |- hoare _ _ _ _ => solve [auto with quiet nocore]
  | |- match match ?e with _ => _ end with _ => _ end => destruct e
  | |- match _ with _ => _ end => case_match; simplify_eq
  | |- _ => done
  end.
Ltac hoare_auto := repeat hoare_step.

Section Quiet.
Context (W : world).

Local Abbreviation any := (λ _, True).

Lemma get_node_ip_quiet removed_nodes :
  hoare quiet any any (get_node_ip removed_nodes).
Proof.
  unfold get_node_ip. hoare_auto.
  apply hoare_for_fold with (I := any); [done| |done].
  intros ip_mapping node _ _. unfold get_node_ip_step. hoare_auto.
  eapply hoare_try_except with (X' := any); hoare_auto.
Qed.

#[local] Hint Resolve get_node_ip_quiet : quiet.

Lemma show_plan_quiet nodes_to_remove node_ips :
  hoare quiet any any (show_plan nodes_to_remove node_ips).
Proof. unfold show_plan. hoare_auto. Qed.

Lemma drain_node_dry_quiet node_name :
  hoare quiet any any (drain_node W node_name true).
Proof. unfold drain_node. hoare_auto. Qed.

Lemma delete_node_dry_quiet node_name :
  hoare quiet any any (delete_node W node_name true).
Proof. unfold delete_node. hoare_auto. Qed.

Lemma stop_k3s_dry_quiet node_ip :
  hoare quiet any any (stop_k3s_on_node W node_ip true).
Proof. unfold stop_k3s_on_node. hoare_auto. Qed.

#[local] Hint Resolve show_plan_quiet drain_node_dry_quiet
  delete_node_dry_quiet stop_k3s_dry_quiet : quiet.

Lemma process_nodes_dry_quiet nodes_to_remove node_ips :
  hoare quiet any any (process_nodes W nodes_to_remove node_ips true).
Proof. unfold process_nodes, process_node. hoare_auto. Qed.

#[local] Hint Resolve process_nodes_dry_quiet : quiet.

Lemma expected_from_config_reading :
  hoare (λ e, reading e = true) any (λ x, x = SystemExit 1)
    (expected_from_config W).
Proof.
  unfold expected_from_config, load_cluster_config.
  apply hoare_try_except with (X' := λ x, ∀ c, x ≠ SystemExit c);
    [|hoare_auto|intros c Hc; by destruct (Hc c)].
  hoare_auto.
Qed.

Lemma get_k3s_nodes_reading :
  hoare (λ e, reading e = true) any (λ x, ∀ c, x ≠ SystemExit c)
    (get_k3s_nodes W).
Proof.
  unfold get_k3s_nodes.
  apply hoare_try_except with (X' := λ x, ∀ c, x ≠ SystemExit c); hoare_auto.
Qed.

Lemma input_quiet :
  hoare quiet (λ l, stdin_line W = Some l) any (input W).
Proof. unfold input. hoare_auto. Qed.

(** A run that is a dry run, or whose prompt is not answered by a word
    that lower-cases to [y], touches nothing. *)
Lemma reconcile_quiet expected_nodes actual_nodes dry_run :
  dry_run = true ∨ (∀ l, stdin_line W = Some l → PyStr.lower l ≠ "y") →
  hoare quiet any any (reconcile W expected_nodes actual_nodes dry_run).
Proof.
  intros Hmode. unfold reconcile. hoare_auto.
  eapply hoare_bind; [apply input_quiet|]. intros l Hl. hoare_auto.
  exfalso. destruct Hmode as [?|Hno]; [done|]. eauto.
Qed.

Lemma main_quiet dry_run :
  dry_run = true ∨ (∀ l, stdin_line W = Some l → PyStr.lower l ≠ "y") →
  hoare quiet any any (main W dry_run).
Proof.
  intros Hmode. unfold main. hoare_auto.
  - eapply hoare_weaken;
      [apply expected_from_config_reading|apply reading_quiet|done..].
  - eapply hoare_weaken;
      [apply get_k3s_nodes_reading|apply reading_quiet|done..].
  - by apply reconcile_quiet.
Qed.


End Quiet.

#[local] Hint Resolve get_node_ip_quiet show_plan_quiet
  process_nodes_dry_quiet : quiet.

Lemma run_events W dry_run : (run W dry_run).1 = (main W dry_run []).1.
Proof. unfold run. by destruct (main W dry_run []) as [es [[]|]]. Qed.

Lemma run_ending W dry_run :
  (run W dry_run).2
  = match (main W dry_run []).2 with
    | inr _ => Returned
    | inl (SystemExit c) => Exited c
    | inl (Exc e) => Traceback e
    end.
Proof. unfold run. by destruct (main W dry_run []) as [es [[]|]]. Qed.

(** ** Facts about sets of names *)

Lemma elem_of_texts x S : x ∈ texts S ↔ ∃ s, x = Text s ∧ s ∈ S.
Proof. apply elem_of_map. Qed.

Lemma Text_elem_of_texts s S : Text s ∈ texts S ↔ s ∈ S.
Proof.
  rewrite elem_of_texts. split; [by intros (? & [= <-] & ?)|by exists s].
Qed.

Lemma texts_difference A E : texts A ∖ texts E = texts (A ∖ E).
Proof. unfold texts. set_solver. Qed.

Lemma texts_empty_iff S : texts S = ∅ ↔ S = ∅.
Proof.
  split; [|by intros ->].
  intros HS. apply set_eq. intros s. rewrite <-Text_elem_of_texts, HS.
  set_solver.
Qed.

Lemma size_texts S : size (texts S) = size S.
Proof.
  unfold texts, set_map, size, set_size. simpl.
  change (size (list_to_set (Text <$> elements S) : gset name) = length (elements S)).
  rewrite size_list_to_set, length_fmap; [done|].
  apply (NoDup_fmap_2 _), NoDup_elements.
Qed.

Lemma texts_are_text S x : x ∈ texts S → is_text x = true.
Proof. by intros (s & -> & _)%elem_of_texts. Qed.

(** Sorting a set of text names succeeds and keeps exactly its members. *)
Lemma sorted_texts S :
  ∃ l, sorted (texts S) = inr l ∧ l ≡ₚ elements (texts S).
Proof.
  exists (merge_sort name_le (elements (texts S))). split.
  - unfold sorted, comparable.
    replace (forallb is_text (elements (texts S))) with true;
      [by rewrite orb_true_r|].
    symmetry. apply forallb_forall. intros x Hx%list_elem_of_In.
    eapply texts_are_text. by apply elem_of_elements.
  - apply merge_sort_Permutation.
Qed.

Lemma sorted_elem_of s l x : sorted s = inr l → x ∈ l ↔ x ∈ s.
Proof.
  unfold sorted. case_match; [|done]. intros [= <-].
  by rewrite merge_sort_Permutation, elem_of_elements.
Qed.

Lemma sorted_NoDup s l : sorted s = inr l → NoDup l.
Proof.
  unfold sorted. case_match; [|done]. intros [= <-].
  rewrite merge_sort_Permutation. apply NoDup_elements.
Qed.

Lemma difference_empty_subseteq (A E : gset string) : A ∖ E = ∅ ↔ A ⊆ E.
Proof.
  split.
  - intros Hempty x Hx. destruct (decide (x ∈ E)) as [|Hno]; [done|].
    assert (x ∈ A ∖ E) as Hin by by apply elem_of_difference.
    rewrite Hempty in Hin. by apply not_elem_of_empty in Hin.
  - intros Hsub. apply set_eq. intros x. rewrite elem_of_difference. split.
    + intros [Hx Hno]. destruct Hno. by apply Hsub.
    + by intros ?%not_elem_of_empty.
Qed.


Lemma difference_nonempty_l (A E : gset string) : A ∖ E ≠ ∅ → A ≠ ∅.
Proof. intros Hne ->. apply Hne. apply set_eq. intros x. rewrite elem_of_difference. split; [by intros [?%not_elem_of_empty _]|by intros ?%not_elem_of_empty]. Qed.

(** ** Facts about the set comprehensions *)

Lemma mapM_inr {A B} (f : A → exn + B) (l : list A) (k : list B) :
  mapM f l = inr k ↔ Forall2 (λ x y, f x = inr y) l k.
Proof.
  revert k. induction l as [|x l IH]; intros k.
  - split; [intros [= <-]; constructor|by inversion 1].
  - change (mapM f (x :: l)) with (y ← f x; k' ← mapM f l; mret (y :: k')).
    unfold mbind, exn_bind, mret, exn_ret.
    destruct (f x) as [e|y] eqn:Hx; [|destruct (mapM f l) as [e|k'] eqn:Hl].
    + split; [done|]. inversion 1; congruence.
    + split; [done|]. inversion 1 as [|???? _ Hl']; subst.
      apply IH in Hl'. congruence.
    + split.
      * intros [= <-]. constructor; [done|]. by apply IH.
      * inversion 1 as [|???? Hx' Hl']; subst. apply IH in Hl'. congruence.
Qed.

Lemma set_of_inr access items S :
  set_of access (JArr items) = inr S ↔
  ∃ members, Forall2 (λ node x, member_of access node = inr x) items members
             ∧ S = list_to_set members.
Proof.
  unfold set_of. simpl. unfold mbind at 1, exn_bind at 1.
  fold (member_of access). split.
  - destruct (mapM _ items) as [|members] eqn:Hm; [done|]. intros [= <-].
    exists members. by rewrite <-mapM_inr.
  - intros (members & Hm%mapM_inr & ->). by rewrite Hm.
Qed.

(** The set does not depend on the order of the items. *)
Lemma set_of_permutation access items items' S :
  items ≡ₚ items' →
  set_of access (JArr items) = inr S → set_of access (JArr items') = inr S.
Proof.
  intros Hp (members & Hm & ->)%set_of_inr. apply set_of_inr.
  revert members Hm. induction Hp as [|x l l' _ IH|x y l|l l' l'' _ IH1 _ IH2];
    intros members Hm.
  - by exists members.
  - inversion Hm as [|? m ? ms Hx Hl]; subst.
    destruct (IH ms Hl) as (ms' & ? & Heq). exists (m :: ms'). split.
    + by constructor.
    + simpl. by rewrite Heq.
  - inversion Hm as [|? m ? ms Hy Hl]; subst.
    inversion Hl as [|? m' ? ms' Hx Hl']; subst.
    exists (m' :: m :: ms'). split; [by repeat constructor|].
    simpl. set_solver.
  - destruct (IH1 members Hm) as (ms' & Hm' & ->). by apply IH2.
Qed.

Lemma declared_names_config_doc ns :
  declared_names (config_doc ns) = inr (texts (list_to_set ns)).
Proof.
  unfold declared_names, config_doc. simpl.
  change (set_of (λ node, py_getitem node "name") (JArr (node_record <$> ns))
          = inr (texts (list_to_set ns))).
  apply set_of_inr. exists (Text <$> ns). split.
  - induction ns; by constructor.
  - symmetry. apply (list_to_set_fmap_L (C:=gset string)).
Qed.

Lemma listed_names_nodes_doc ns :
  listed_names (nodes_doc ns) = inr (texts (list_to_set ns)).
Proof.
  unfold listed_names, nodes_doc. simpl.
  change (set_of (λ node, metadata ← py_getitem node "metadata";
                          py_getitem metadata "name") (JArr (node_item <$> ns))
          = inr (texts (list_to_set ns))).
  apply set_of_inr. exists (Text <$> ns). split.
  - induction ns; by constructor.
  - symmetry. apply (list_to_set_fmap_L (C:=gset string)).
Qed.

Lemma calm_declares expected actual answer :
  declares (calm expected actual answer) (list_to_set expected).
Proof. eexists. split; [done|]. apply declared_names_config_doc. Qed.

Lemma calm_lists expected actual answer :
  lists (calm expected actual answer) (list_to_set actual).
Proof. eexists. split; [done|]. apply listed_names_nodes_doc. Qed.

(** ** The resolver *)

Lemma get_node_ip_step_text ip_mapping s past :
  ∃ es, get_node_ip_step ip_mapping (Text s) past
        = (es, inr (resolve_step ip_mapping (Text s)))
        ∧ Forall is_no_ip es.
Proof.
  unfold get_node_ip_step, resolve_step, resolve, startswith_of, slice_of.
  destruct (PyStr.startswith "nuc" s);
    [destruct (PyStr.int (PyStr.slice_from 3 s)) as [n|]|].
  - by exists [].
  - exists [Print (MNoIp (Text s))]. split; [done|].
    repeat constructor. by eexists.
  - by exists [].
Qed.

Lemma resolve_loop (nodes : list name) ip_mapping past :
  Forall (λ x, is_text x = true) nodes →
  ∃ es,
    for_fold nodes get_node_ip_step ip_mapping past
    = (es, inr (foldl resolve_step ip_mapping nodes))
    ∧ Forall is_no_ip es.
Proof.
  intros Htext. revert ip_mapping past.
  induction Htext as [|x nodes Hx _ IH]; intros ip_mapping past.
  - by exists [].
  - destruct x as [s| |]; try done.
    cbn [for_fold foldl]. unfold mbind at 1, M_bind at 1.
    destruct (get_node_ip_step_text ip_mapping s past) as (es & -> & Hes).
    destruct (IH (resolve_step ip_mapping (Text s)) (past ++ es))
      as (es' & -> & Hes').
    exists (es ++ es'). split; [done|]. by apply Forall_app.
Qed.

Lemma lookup_resolve_step ip_mapping node x :
  resolve_step ip_mapping node !! x
  = match node with
    | Text s =>
        if decide (x = node) then
          match resolve s with Some ip => Some ip | None => ip_mapping !! x end
        else ip_mapping !! x
    | _ => ip_mapping !! x
    end.
Proof.
  unfold resolve_step. destruct node as [s| |]; [|done..].
  case_decide as Hx; destruct (resolve s); try done.
  - by rewrite Hx, lookup_insert_eq.
  - by rewrite lookup_insert_ne.
Qed.

Lemma lookup_resolve_loop (nodes : list name) ip_mapping x :
  foldl resolve_step ip_mapping nodes !! x
  = match x with
    | Text s =>
        if decide (x ∈ nodes) then
          match resolve s with Some ip => Some ip | None => ip_mapping !! x end
        else ip_mapping !! x
    | _ => ip_mapping !! x
    end.
Proof.
  revert ip_mapping. induction nodes as [|y nodes IH]; intros ip_mapping.
  - destruct x; [|done..]. cbn [foldl].
    case_decide as Hin; [by apply not_elem_of_nil in Hin|done].
  - cbn [foldl]. rewrite IH, lookup_resolve_step.
    destruct x as [s| |]; [|by destruct y..].
    destruct (decide (Text s ∈ nodes)) as [Hin|Hin];
      destruct (decide (Text s ∈ y :: nodes)) as [Hin'|Hin'];
      try (exfalso; apply Hin'; by right).
    + destruct y as [t| |]; [|done..].
      destruct (resolve s) eqn:Hs; [done|].
      case_decide; simplify_eq; [by rewrite Hs|done].
    + apply elem_of_cons in Hin' as [<-|?]; [|done]. by rewrite decide_True.
    + destruct y as [t| |]; [|done..].
      rewrite decide_False; [done|]. intros [= ->]. apply Hin'. by left.
Qed.

(** What [get_node_ip] returns on a set of text names: it never raises, it
    only prints its warnings, and a name has an address exactly when
    [resolve] gives one. *)
Lemma get_node_ip_texts (R : gset string) past :
  ∃ es node_ips,
    get_node_ip (texts R) past = (es, inr node_ips)
    ∧ Forall is_no_ip es
    ∧ (∀ s, node_ips !! Text s = if decide (s ∈ R) then resolve s else None)
    ∧ (∀ x, is_text x = false → node_ips !! x = None).
Proof.
  destruct (sorted_texts R) as (l & Hl & Hperm).
  assert (Forall (λ x, is_text x = true) l) as Htext.
  { apply Forall_forall. intros x Hx. apply (texts_are_text R).
    by rewrite <-(sorted_elem_of _ _ _ Hl). }
  destruct (resolve_loop l ∅ past Htext) as (es & Heq & Hes).
  exists es, (foldl resolve_step ∅ l). split_and!.
  - unfold get_node_ip. rewrite Hl. unfold mbind, M_bind. simpl.
    replace (past ++ []) with past by by rewrite app_nil_r.
    by rewrite Heq.
  - done.
  - intros s. rewrite lookup_resolve_loop, lookup_empty.
    rewrite (decide_ext _ (s ∈ R))
      by by rewrite (sorted_elem_of _ _ _ Hl), Text_elem_of_texts.
    by repeat case_match.
  - intros x Hx. rewrite lookup_resolve_loop, lookup_empty. by destruct x.
Qed.

(** ** A logic of what a computation does *)

Lemma total_ret {A} (a : A) (Φ : list event → A → Prop) :
  Φ [] a → total (mret a) Φ.
Proof. intros ? past. by exists [], a. Qed.

Lemma total_bind {A B} (m : M A) (k : A → M B) Φ1 (Φ : list event → B → Prop) :
  total m Φ1 →
  (∀ es1 a, Φ1 es1 a → total (k a) (λ es2 b, Φ (es1 ++ es2) b)) →
  total (m ≫= k) Φ.
Proof.
  intros Hm Hk past. destruct (Hm past) as (es1 & a & Hes1 & H1).
  destruct (Hk es1 a H1 (past ++ es1)) as (es2 & b & Hes2 & H2).
  exists (es1 ++ es2), b. split; [|done].
  unfold mbind, M_bind. by rewrite Hes1, Hes2.
Qed.

Lemma total_emit e (Φ : list event → unit → Prop) :
  Φ [e] tt → total (emit e) Φ.
Proof. intros ? past. by exists [e], tt. Qed.

Lemma total_print m (Φ : list event → unit → Prop) :
  Φ [Print m] tt → total (print m) Φ.
Proof. apply total_emit. Qed.

(** [print m ;; k] *)
Lemma total_print_then {B} m (k : unit → M B) (Φ : list event → B → Prop) :
  total (k tt) (λ es b, Φ (Print m :: es) b) → total (print m ≫= k) Φ.
Proof.
  intros Hk. apply total_bind with (Φ1 := λ es _, es = [Print m]).
  - by apply total_print.
  - by intros ? [] ->.
Qed.

Lemma total_lift {A} (r : exn + A) a (Φ : list event → A → Prop) :
  r = inr a → Φ [] a → total (lift r) Φ.
Proof. intros -> ?. by apply total_ret. Qed.

(** [x = r ;; k x] for an expression [r] that does not raise *)
Lemma total_lift_then {A B} (r : exn + A) a (k : A → M B)
    (Φ : list event → B → Prop) :
  r = inr a → total (k a) Φ → total (lift r ≫= k) Φ.
Proof.
  intros -> Hk. apply total_bind with (Φ1 := λ es a', es = [] ∧ a' = a).
  - by apply total_ret.
  - by intros ? ? [-> ->].
Qed.

Lemma total_weaken {A} (m : M A) (Φ Ψ : list event → A → Prop) :
  total m Φ → (∀ es a, Φ es a → Ψ es a) → total m Ψ.
Proof.
  intros Hm HΦ past. destruct (Hm past) as (es & a & ? & ?). eauto.
Qed.

Lemma total_for_each {A} (xs : list A) (body : A → M unit)
    (G : A → list event → Prop) :
  (∀ x, x ∈ xs → total (body x) (λ es _, G x es)) →
  total (for_each xs body)
    (λ es _, ∃ chunks, es = concat chunks ∧ Forall2 G xs chunks).
Proof.
  induction xs as [|x xs IH]; intros Hbody.
  - apply total_ret. exists []. split; [done|constructor].
  - cbn [for_each]. eapply total_bind; [apply Hbody; by left|].
    intros es [] HG. eapply total_weaken.
    + apply IH. intros y Hy. apply Hbody. by right.
    + intros es' _ (chunks & -> & HGs). exists (es :: chunks).
      split; [done|by constructor].
Qed.

(** A computation that returns agrees with what [hoare] says of it. *)
Lemma total_hoare {A} (m : M A) Φ P (Q : A → Prop) X :
  total m Φ → hoare P Q X m → total m (λ es a, Φ es a ∧ Forall P es ∧ Q a).
Proof.
  intros Hm Hh past. destruct (Hm past) as (es & a & Heq & ?).
  destruct (Hh past) as [Hes Ha]. rewrite Heq in Hes, Ha. eauto 10.
Qed.

(** ** The loop over the removal set *)


Section Loop.
Context (W : world).







End Loop.

(** ** The plan and the loop as a whole *)

Lemma texts_list (l' : list name) :
  Forall (λ x, is_text x = true) l' → ∃ l, l' = Text <$> l.
Proof.
  induction 1 as [|[s| |] l' Hx _ [l ->]]; try done.
  - by exists [].
  - by exists (s :: l).
Qed.

(** The sorted list of a set of text names, as a list of names. *)
Lemma sorted_texts_list (R : gset string) :
  ∃ l, sorted (texts R) = inr (Text <$> l) ∧ (∀ s, s ∈ l ↔ s ∈ R) ∧ NoDup l.
Proof.
  destruct (sorted_texts R) as (l' & Hl' & _).
  destruct (texts_list l') as [l ->].
  { apply Forall_forall. intros x Hx. apply (texts_are_text R).
    by rewrite <-(sorted_elem_of _ _ _ Hl'). }
  exists l. split_and!; [done| |].
  - intros s. rewrite <-Text_elem_of_texts, <-(sorted_elem_of _ _ _ Hl').
    split; [apply list_elem_of_fmap_2|].
    by intros (? & [= <-] & ?)%list_elem_of_fmap.
  - eapply NoDup_fmap_1, sorted_NoDup, Hl'.
Qed.

Section Runs.
Context (W : world).

Lemma show_plan_returns (R : gset string) node_ips :
  total (show_plan (texts R) node_ips) (λ es _, Forall quiet es).
Proof.
  destruct (sorted_texts R) as (l & Hl & _).
  eapply total_weaken.
  - eapply (total_hoare _ (λ _ _, True)); [|apply show_plan_quiet].
    unfold show_plan. apply total_print_then.
    eapply total_lift_then; [exact Hl|].
    eapply total_weaken; [apply (total_for_each _ _ (λ _ _, True))|done].
    intros x _. do 4 apply total_print_then. by apply total_print.
  - by intros es [] (_ & ? & _).
Qed.

Lemma get_node_ip_returns (R : gset string) :
  total (get_node_ip (texts R)) (λ es node_ips,
    Forall quiet es
    ∧ (∀ s, node_ips !! Text s = if decide (s ∈ R) then resolve s else None)).
Proof.
  intros past.
  destruct (get_node_ip_texts R past) as (es & node_ips & Heq & Hes & Hips & _).
  exists es, node_ips. split_and!; [done| |done].
  eapply Forall_impl; [exact Hes|]. intros e [n ->]. by apply quiet_print.
Qed.


(** ** The run up to the loop *)

Lemma expected_from_config_reads E :
  declares W E →
  total (expected_from_config W) (λ es expected_nodes,
    ∃ shown, es = [OpenConfig; Print (MExpected shown)]
             ∧ expected_nodes = texts E).
Proof.
  intros (config & Hconfig & Hnames) past.
  destruct (sorted_texts E) as (shown & Hshown & _).
  exists [OpenConfig; Print (MExpected shown)], (texts E). split; [|by eauto].
  unfold expected_from_config, load_cluster_config, try_except.
  unfold mbind, M_bind, emit. rewrite Hconfig. simpl.
  rewrite Hnames. simpl. by rewrite Hshown.
Qed.

Lemma get_k3s_nodes_reads A :
  lists W A →
  total (get_k3s_nodes W) (λ es actual_nodes,
    es = [Spawn list_nodes_argv] ∧ actual_nodes = texts A).
Proof.
  intros (doc & Hdoc & Hnames) past.
  exists [Spawn list_nodes_argv], (texts A). split; [|done].
  unfold get_k3s_nodes, try_except.
  unfold mbind, M_bind, emit. rewrite Hdoc. simpl. by rewrite Hnames.
Qed.

(** A run whose two node sets can be read, the actual one not empty, is
    its prelude followed by the reconciliation of the two sets. *)
Lemma main_reads E A dry_run (Φ : list event → unit → Prop) :
  declares W E → lists W A → A ≠ ∅ →
  total (reconcile W (texts E) (texts A) dry_run) Φ →
  total (main W dry_run) (λ es _,
    ∃ expected actual rest, es = prelude expected actual ++ rest ∧ Φ rest tt).
Proof.
  intros HE HA Hne Hrec. unfold main. do 2 apply total_print_then.
  eapply total_bind; [by apply expected_from_config_reads|].
  intros ? ? (expected & -> & ->).
  eapply total_bind; [by apply get_k3s_nodes_reads|].
  intros ? ? (-> & ->).
  rewrite decide_False by by rewrite texts_empty_iff.
  destruct (sorted_texts A) as (actual & Hactual & _).
  eapply total_lift_then; [exact Hactual|]. apply total_print_then.
  eapply total_weaken; [exact Hrec|]. intros rest [] ?.
  by exists expected, actual, rest.
Qed.

Lemma reconcile_nothing E A dry_run :
  A ⊆ E →
  total (reconcile W (texts E) (texts A) dry_run)
    (λ es _, es = [Print MNothingToDo]).
Proof.
  intros Hsub. unfold reconcile.
  rewrite decide_True; [by apply total_print|].
  rewrite texts_difference. apply texts_empty_iff. set_solver.
Qed.

Lemma reconcile_cancelled E A l :
  A ∖ E ≠ ∅ → stdin_line W = Some l → PyStr.lower l ≠ "y" →
  total (reconcile W (texts E) (texts A) false) (λ es _,
    ∃ es0, before_loop false (size (A ∖ E)) es0
           ∧ es = es0 ++ [Print MCancelled]).
Proof.
  intros Hne Hl Hno. unfold reconcile.
  rewrite texts_difference.
  rewrite decide_False by by rewrite texts_empty_iff.
  destruct (sorted_texts (A ∖ E)) as (shown & Hshown & _).
  eapply total_lift_then; [exact Hshown|]. apply total_print_then.
  eapply total_bind; [apply get_node_ip_returns|]. intros es1 node_ips [Hes1 _].
  eapply total_bind; [apply show_plan_returns|]. intros es2 [] Hes2.
  do 4 apply total_print_then.
  eapply total_bind with (Φ1 := λ es response, es = [Ask] ∧ response = l).
  { intros past. exists [Ask], l. split; [|done].
    unfold input, mbind, M_bind, emit. by rewrite Hl. }
  intros ? ? [-> ->]. rewrite decide_True by done. apply total_print.
  eexists. split; [exists shown, (es1 ++ es2); split; [by apply Forall_app|]|].
  - reflexivity.
  - rewrite size_texts. simpl. by rewrite <-!app_assoc.
Qed.


End Runs.

(** ** Names the resolver reads *)

Section ResolveFacts.
Import PyStr.






End ResolveFacts.


(** ** From the turns of the nodes to the whole run *)




(** A computation that returns makes a run that ends by returning. *)
Lemma run_returns W dry_run (Φ : list event → unit → Prop) :
  total (main W dry_run) Φ →
  ∃ es, run W dry_run = (es, Returned) ∧ Φ es tt.
Proof.
  intros Hmain. destruct (Hmain []) as (es & [] & Heq & ?).
  exists es. split; [|done]. unfold run. by rewrite Heq.
Qed.

(** What [hoare] says of [main] holds of the run. *)
Lemma run_hoare W dry_run P (Q : unit → Prop) X :
  hoare P Q X (main W dry_run) →
  Forall P (run W dry_run).1
  ∧ match (run W dry_run).2 with
    | Returned => Q tt
    | Exited c => X (SystemExit c)
    | Traceback e => X (Exc e)
    end.
Proof.
  intros Hmain. destruct (Hmain []) as [Hes Hr]. unfold run.
  by destruct (main W dry_run []) as [es [[e|c]|[]]].
Qed.



(** ** Facts about the sample worlds *)

Lemma config_doc_declares W ns :
  cluster_json W = inr (config_doc ns) → declares W (list_to_set ns).
Proof. intros HW. eexists. split; [exact HW|]. apply declared_names_config_doc. Qed.

Lemma nodes_doc_lists W ns :
  kubectl_nodes W = inr (Some (nodes_doc ns)) → lists W (list_to_set ns).
Proof. intros HW. eexists. split; [exact HW|]. apply listed_names_nodes_doc. Qed.


(** ** The claims *)

(** *** C8: an unreadable membership file *)

(** C8.  If the membership file cannot be read or parsed ([open] or
    [json.load] raises), or holds no list of named nodes, the run prints the
    title, tries the file, prints the diagnostic and exits with status 1:
    no child process is started and no node set is assumed. *)
Theorem unreadable_config_is_fatal (W : world) (dry_run : bool) (e : exn) :
  cluster_json W = inl e
  ∨ (∃ config, cluster_json W = inr config ∧ declared_names config = inl e) →
  run W dry_run
  = ([Print MTitle; Print MRule; OpenConfig; Print (MConfigFailed e)],
     Exited 1)
  ∧ exit_code (run W dry_run).2 ≠ 0
  ∧ ∀ argv, Spawn argv ∉ (run W dry_run).1.
Proof.
  intros Hfile.
  assert (run W dry_run
          = ([Print MTitle; Print MRule; OpenConfig; Print (MConfigFailed e)],
             Exited 1)) as ->.
  { unfold run, main, expected_from_config, load_cluster_config, try_except.
    unfold mbind, M_bind, print, emit, lift. simpl.
    destruct Hfile as [->|(config & -> & Hnames)]; simpl; [done|].
    by rewrite Hnames. }
  split_and!; [done|done|].
  intros argv Hin. simpl in Hin. rewrite !elem_of_cons, elem_of_nil in Hin.
  by destruct_or!.
Qed.

Lemma unreadable_config_is_fatal_witness :
  run missing_file false
  = ([Print MTitle; Print MRule; OpenConfig; Print (MConfigFailed OSError)],
     Exited 1)
  ∧ exit_code (run missing_file false).2 ≠ 0
  ∧ ∀ argv, Spawn argv ∉ (run missing_file false).1.
Proof.
  apply (unreadable_config_is_fatal missing_file false OSError).
  left. reflexivity.
Defined.

(** *** C5 and C10: the resolver *)





(** *** C9: the answer at the prompt *)

(** C9.  The answers that let the run go on are exactly [y] and [Y]; with
    any other line typed at the prompt (such as [yes]) a run that had
    something to remove prints the cancellation right after the prompt and
    returns, which ends the process with status 0. *)
Theorem only_y_confirms (W : world) (E A : gset string) (l : string) :
  declares W E → lists W A → A ∖ E ≠ ∅ →
  stdin_line W = Some l → l ≠ "y" → l ≠ "Y" →
  (∀ l', PyStr.lower l' = "y" ↔ l' = "y" ∨ l' = "Y")
  ∧ PyStr.lower "yes" ≠ "y"
  ∧ (∃ es, (run W false).1 = es ++ [Ask; Print MCancelled])
  ∧ (run W false).2 = Returned
  ∧ exit_code (run W false).2 = 0.
Proof.
  intros HE HA Hne Hl Hy HY. split; [apply lower_y|]. split; [done|].
  assert (PyStr.lower l ≠ "y") as Hno by (rewrite lower_y; by intros [|]).
  pose proof (difference_nonempty_l _ _ Hne) as HA'.
  destruct (run_returns W false _
              (main_reads W E A false _ HE HA HA'
                 (reconcile_cancelled W E A l Hne Hl Hno)))
    as (es & Hrun & expected & actual & rest & -> & es0 & Hes0 & ->).
  rewrite Hrun. split_and!; [|done..].
  destruct Hes0 as (shown & plan & _ & ->).
  exists (prelude expected actual
          ++ Print (MToRemove shown) :: plan ++ warning (size (A ∖ E))).
  simpl. by rewrite <-!(assoc_L (++)).
Qed.

Lemma only_y_confirms_witness :
  (∀ l', PyStr.lower l' = "y" ↔ l' = "y" ∨ l' = "Y")
  ∧ PyStr.lower "yes" ≠ "y"
  ∧ (∃ es, (run (stubborn (Some "yes")) false).1 = es ++ [Ask; Print MCancelled])
  ∧ (run (stubborn (Some "yes")) false).2 = Returned
  ∧ exit_code (run (stubborn (Some "yes")) false).2 = 0.
Proof.
  apply (only_y_confirms (stubborn (Some "yes"))
           (list_to_set ["nuc1"; "nuc2"])
           (list_to_set ["nuc3"; "nuc1"; "gpu"; "nuc2"]) "yes").
  - apply config_doc_declares. reflexivity.
  - apply nodes_doc_lists. reflexivity.
  - vm_compute. discriminate.
  - reflexivity.
  - discriminate.
  - discriminate.
Defined.




(** *** C3: the dry run *)



(** *** C4: a declined prompt *)

(** C4.  In a run that is not a dry run, if the line read at the prompt does
    not lower-case to [y] (or there is no line to read), no process other
    than the listing is ever started and the line announcing a finished
    clean-up is never printed; when there was something to remove and a line
    was read, the run ends right after the prompt with the cancellation. *)
Theorem declined_prompt_touches_nothing (W : world) :
  (∀ l, stdin_line W = Some l → PyStr.lower l ≠ "y") →
  (∀ argv, Spawn argv ∈ (run W false).1 → argv = list_nodes_argv)
  ∧ (∀ count, Print (MCleaned count) ∉ (run W false).1)
  ∧ (∀ E A l,
       declares W E → lists W A → A ∖ E ≠ ∅ → stdin_line W = Some l →
       ∃ es, run W false = (es ++ [Ask; Print MCancelled], Returned)).
Proof.
  intros Hno.
  assert (Forall quiet (run W false).1) as Hquiet.
  { apply (run_hoare W false quiet (λ _, True) (λ _, True)).
    apply main_quiet. by right. }
  rewrite Forall_forall in Hquiet. split_and!.
  - intros argv Hin. destruct (Hquiet _ Hin) as [Hmut _]. simpl in Hmut.
    apply bool_decide_eq_false in Hmut. by apply dec_stable.
  - intros count Hin. destruct (Hquiet _ Hin) as [_ Hcleaned].
    by destruct (Hcleaned count).
  - intros E A l HE HA Hne Hl.
    pose proof (difference_nonempty_l _ _ Hne) as HA'.
    destruct (run_returns W false _
                (main_reads W E A false _ HE HA HA'
                   (reconcile_cancelled W E A l Hne Hl (Hno l Hl))))
      as (es & Hrun & expected & actual & rest & -> & es0 & Hes0 & ->).
    rewrite Hrun. destruct Hes0 as (shown & plan & _ & ->).
    exists (prelude expected actual
            ++ Print (MToRemove shown) :: plan ++ warning (size (A ∖ E))).
    simpl. by rewrite <-!(assoc_L (++)).
Qed.

Lemma declined_prompt_touches_nothing_witness :
  (∀ argv, Spawn argv ∈ (run (stubborn (Some "n")) false).1
           → argv = list_nodes_argv)
  ∧ (∀ count, Print (MCleaned count) ∉ (run (stubborn (Some "n")) false).1)
  ∧ (∀ E A l,
       declares (stubborn (Some "n")) E → lists (stubborn (Some "n")) A →
       A ∖ E ≠ ∅ → stdin_line (stubborn (Some "n")) = Some l →
       ∃ es, run (stubborn (Some "n")) false
             = (es ++ [Ask; Print MCancelled], Returned)).
Proof.
  apply (declined_prompt_touches_nothing (stubborn (Some "n"))).
  intros l [= <-]. vm_compute. discriminate.
Defined.

(** *** C7: failures inside the loop *)



Lemma bind_returns {A B} (m : M A) (k : A → M B) past es a :
  m past = (es, inr a) →
  (m ≫= k) past = (es ++ (k a (past ++ es)).1, (k a (past ++ es)).2).
Proof.
  intros Hm. unfold mbind, M_bind. rewrite Hm.
  by destruct (k a (past ++ es)).
Qed.

(** A run whose two node sets can be read, the actual one not empty,
    continues as the reconciliation of the two, whatever that does. *)
Lemma main_continues W E A dry_run :
  declares W E → lists W A → A ≠ ∅ →
  ∃ expected actual,
    main W dry_run []
    = (prelude expected actual
         ++ (reconcile W (texts E) (texts A) dry_run
               (prelude expected actual)).1,
       (reconcile W (texts E) (texts A) dry_run (prelude expected actual)).2).
Proof.
  intros HE HA Hne.
  destruct (sorted_texts A) as (actual & Hactual & _).
  destruct (expected_from_config_reads W E HE [Print MTitle; Print MRule])
    as (? & ? & Hexp & expected & -> & ->).
  destruct (get_k3s_nodes_reads W A HA
              [Print MTitle; Print MRule; OpenConfig; Print (MExpected expected)])
    as (? & ? & Hact & -> & ->).
  exists expected, actual. unfold main.
  rewrite (bind_returns _ _ _ [Print MTitle] tt) by done.
  rewrite (bind_returns _ _ _ [Print MRule] tt) by done.
  rewrite (bind_returns _ _ _ _ _ Hexp).
  rewrite (bind_returns _ _ _ _ _ Hact).
  rewrite decide_False by by rewrite texts_empty_iff.
  rewrite (bind_returns (lift _) _ _ [] actual) by by rewrite Hactual.
  rewrite (bind_returns _ _ _ [Print (MActual actual)] tt) by done.
  done.
Qed.

Lemma reconcile_announces W E A dry_run past :
  A ∖ E ≠ ∅ →
  ∃ shown rest,
    sorted (texts (A ∖ E)) = inr shown
    ∧ (reconcile W (texts E) (texts A) dry_run past).1
      = Print (MToRemove shown) :: rest.
Proof.
  intros Hne. destruct (sorted_texts (A ∖ E)) as (shown & Hshown & _).
  exists shown. unfold reconcile. rewrite texts_difference.
  rewrite decide_False by by rewrite texts_empty_iff.
  rewrite (bind_returns (lift _) _ _ [] shown) by by rewrite Hshown.
  rewrite (bind_returns _ _ _ [Print (MToRemove shown)] tt) by done.
  by eexists.
Qed.

(** *** C1: the removal set *)

(** C1, as amended.  When the membership file declares [E] and the cluster
    lists [A], the set the run works on is [A] minus [E]: it is what the run
    prints as the nodes to remove, it is empty exactly when [A] is included
    in [E], and no reordering of the items of either document changes it.
    When [A] is not empty and included in [E] the run prints that there is
    nothing to clean up and returns, having printed no plan and started
    nothing but the listing; an empty [A] ends the run with status 1. *)
Theorem removal_set_is_the_difference (W : world) (dry_run : bool)
    (E A : gset string) :
  declares W E → lists W A →
  texts A ∖ texts E = texts (A ∖ E)
  ∧ (A ∖ E = ∅ ↔ A ⊆ E)
  ∧ (A ∖ E ≠ ∅ →
     ∃ shown, Print (MToRemove shown) ∈ (run W dry_run).1
              ∧ list_to_set shown = texts (A ∖ E))
  ∧ (∀ access items items' S,
       items ≡ₚ items' →
       set_of access (JArr items) = inr S → set_of access (JArr items') = inr S)
  ∧ (A ≠ ∅ → A ⊆ E →
     ∃ expected actual,
       run W dry_run
       = (prelude expected actual ++ [Print MNothingToDo], Returned))
  ∧ (A = ∅ → (run W dry_run).2 = Exited 1).
Proof.
  intros HE HA. split_and!.
  - apply texts_difference.
  - apply difference_empty_subseteq.
  - intros Hne. pose proof (difference_nonempty_l _ _ Hne) as HA'.
    destruct (main_continues W E A dry_run HE HA HA')
      as (expected & actual & Hmain).
    destruct (reconcile_announces W E A dry_run (prelude expected actual) Hne)
      as (shown & rest & Hshown & Hrest).
    exists shown. split.
    + rewrite run_events, Hmain. simpl. rewrite Hrest.
      rewrite !elem_of_cons. auto 10.
    + apply set_eq. intros x.
      by rewrite elem_of_list_to_set, (sorted_elem_of _ _ _ Hshown).
  - apply set_of_permutation.
  - intros HA' Hsub.
    destruct (run_returns W dry_run _
                (main_reads W E A dry_run _ HE HA HA'
                   (reconcile_nothing W E A dry_run Hsub)))
      as (es & Hrun & expected & actual & rest & -> & ->).
    by exists expected, actual.
  - intros ->.
    destruct (expected_from_config_reads W E HE [Print MTitle; Print MRule])
      as (? & ? & Hexp & expected & -> & ->).
    destruct (get_k3s_nodes_reads W ∅ HA
                [Print MTitle; Print MRule; OpenConfig;
                 Print (MExpected expected)])
      as (? & ? & Hact & -> & ->).
    rewrite run_ending. unfold main.
    rewrite (bind_returns _ _ _ [Print MTitle] tt) by done.
    rewrite (bind_returns _ _ _ [Print MRule] tt) by done.
    rewrite (bind_returns _ _ _ _ _ Hexp).
    rewrite (bind_returns _ _ _ _ _ Hact).
    by rewrite decide_True by done.
Qed.

Lemma removal_set_is_the_difference_witness :
  texts (list_to_set ["nuc3"; "nuc1"; "gpu"; "nuc2"])
    ∖ texts (list_to_set ["nuc1"; "nuc2"])
  = texts (list_to_set ["nuc3"; "nuc1"; "gpu"; "nuc2"]
           ∖ list_to_set ["nuc1"; "nuc2"])
  ∧ ((list_to_set ["nuc3"; "nuc1"; "gpu"; "nuc2"]
      ∖ list_to_set ["nuc1"; "nuc2"] : gset string) = ∅
     ↔ (list_to_set ["nuc3"; "nuc1"; "gpu"; "nuc2"] : gset string)
       ⊆ list_to_set ["nuc1"; "nuc2"])
  ∧ ((list_to_set ["nuc3"; "nuc1"; "gpu"; "nuc2"]
      ∖ list_to_set ["nuc1"; "nuc2"] : gset string) ≠ ∅ →
     ∃ shown, Print (MToRemove shown) ∈ (run (stubborn None) true).1
              ∧ list_to_set shown
                = texts (list_to_set ["nuc3"; "nuc1"; "gpu"; "nuc2"]
                         ∖ list_to_set ["nuc1"; "nuc2"]))
  ∧ (∀ access items items' S,
       items ≡ₚ items' →
       set_of access (JArr items) = inr S → set_of access (JArr items') = inr S)
  ∧ ((list_to_set ["nuc3"; "nuc1"; "gpu"; "nuc2"] : gset string) ≠ ∅ →
     (list_to_set ["nuc3"; "nuc1"; "gpu"; "nuc2"] : gset string)
       ⊆ list_to_set ["nuc1"; "nuc2"] →
     ∃ expected actual,
       run (stubborn None) true
       = (prelude expected actual ++ [Print MNothingToDo], Returned))
  ∧ ((list_to_set ["nuc3"; "nuc1"; "gpu"; "nuc2"] : gset string) = ∅ →
     (run (stubborn None) true).2 = Exited 1).
Proof.
  apply (removal_set_is_the_difference (stubborn None) true
           (list_to_set ["nuc1"; "nuc2"])
           (list_to_set ["nuc3"; "nuc1"; "gpu"; "nuc2"])).
  - apply config_doc_declares. reflexivity.
  - apply nodes_doc_lists. reflexivity.
Defined.

(** C1 as stated: a run whose actual set is included in the expected one
    does not always end successfully.  With nothing listed, the run stops at
    the guard on the actual set and exits with status 1. *)
Lemma empty_listing_is_not_a_success :
  ¬ (∀ (W : world) (dry_run : bool) (E A : gset string),
       declares W E → lists W A →
       (A ∖ E = ∅ ↔ A ⊆ E)
       ∧ (A ⊆ E → exit_code (run W dry_run).2 = 0)).
Proof.
  intros H.
  destruct (H (calm ["nuc1"] [] None) false (list_to_set ["nuc1"])
              (list_to_set [])) as [_ Hrun].
  - apply config_doc_declares. reflexivity.
  - apply nodes_doc_lists. reflexivity.
  - assert (exit_code (run (calm ["nuc1"] [] None) false).2 = 0) as Hcode.
    { apply Hrun. apply empty_subseteq. }
    vm_compute in Hcode. discriminate.
Qed.

(** *** C6: a name the resolver does not know *)



(** *** C2: a listing that fails *)




(** * Further properties *)

(** ** The processes a run starts *)

Lemma spawned_app es es' : spawned (es ++ es') = spawned es ++ spawned es'.
Proof. apply omap_app. Qed.

Lemma spawned_print m es : spawned (Print m :: es) = spawned es.
Proof. done. Qed.

Lemma spawned_spawn argv es : spawned (Spawn argv :: es) = argv :: spawned es.
Proof. done. Qed.

Lemma spawned_ask es : spawned (Ask :: es) = spawned es.
Proof. done. Qed.

Lemma spawned_open es : spawned (OpenConfig :: es) = spawned es.
Proof. done. Qed.

Lemma spawned_nil : spawned [] = [].
Proof. done. Qed.

Ltac spawned_simpl :=
  repeat first
    [ rewrite spawned_app | rewrite spawned_print | rewrite spawned_spawn
    | rewrite spawned_ask | rewrite spawned_open | rewrite spawned_nil ].

Lemma spawned_silent es : Forall silent es → spawned es = [].
Proof.
  induction 1 as [|e es He _ IH]; [done|].
  destruct e as [| |argv|]; try done. by destruct (He argv).
Qed.


Lemma hoare_spawn W P (Q : unit → Prop) (X : raised → Prop) argv :
  P (Spawn argv) → Q tt → (∀ e, X (Exc e)) → hoare P Q X (spawn W argv).
Proof.
  intros HP HQ HX past. split; [by repeat constructor|].
  unfold spawn. simpl. by destruct (child W past argv).
Qed.

(** The rules of the logic applied along a computation, with [ev] for the
    obligation on each event. *)
Ltac hoare_walk ev :=
  repeat lazymatch goal with
  | |- ∀ _, _ => intro
  | |- hoare _ _ _ (mret _) => apply hoare_ret; done
  | |- hoare _ _ _ (print _) => apply hoare_print; [ev|done]
  | |- hoare _ _ _ (emit _) => apply hoare_emit; [ev|done]
  | |- hoare _ _ _ (raise _) => apply hoare_raise; done
  | |- hoare _ _ _ (sys_exit _) => apply hoare_sys_exit; done
  | |- hoare _ _ _ (lift _) => apply hoare_lift; done
  | |- hoare _ _ _ (spawn _ _) => apply hoare_spawn; [ev|done|done]
  | |- hoare _ _ ?X (try_except _ _) =>
      apply hoare_try_except with (X' := X)
  | |- hoare _ _ _ (for_fold _ _ _) =>
      apply hoare_for_fold with (I := λ _, True)
  | |- hoare _ _ _ (_ ≫= _) => apply hoare_seq
  | |- hoare _ _ _ (for_each _ _) => apply hoare_for_each
  | |- hoare _ _ _ (match _ with _ => _ end) => case_match; simplify_eq
  | |- match match ?e with _ => _ end with _ => _ end => destruct e
  | |- match _ with _ => _ end => case_match; simplify_eq
  | |- _ => done
  end.

Section Spawns.
Context (W : world).

Local Abbreviation any := (λ _, True).

Lemma get_node_ip_silent removed_nodes :
  hoare silent any any (get_node_ip removed_nodes).
Proof.
  unfold get_node_ip. hoare_walk ltac:(by intros ?).
  unfold get_node_ip_step. hoare_walk ltac:(by intros ?).
Qed.

Lemma show_plan_silent nodes_to_remove node_ips :
  hoare silent any any (show_plan nodes_to_remove node_ips).
Proof. unfold show_plan. hoare_walk ltac:(by intros ?). Qed.




End Spawns.

Section ConfirmedRun.
Context (W : world).

Lemma get_node_ip_plans (R : gset string) :
  total (get_node_ip (texts R)) (λ es node_ips,
    Forall quiet es ∧ Forall silent es
    ∧ (∀ s, node_ips !! Text s = if decide (s ∈ R) then resolve s else None)).
Proof.
  eapply total_weaken.
  - eapply total_hoare; [apply get_node_ip_returns|apply get_node_ip_silent].
  - intros es node_ips ([? ?] & ? & _). done.
Qed.

Lemma show_plan_plans (R : gset string) node_ips :
  total (show_plan (texts R) node_ips)
    (λ es _, Forall quiet es ∧ Forall silent es).
Proof.
  eapply total_weaken.
  - eapply total_hoare; [apply show_plan_returns|apply show_plan_silent].
  - intros es [] (? & ? & _). done.
Qed.


End ConfirmedRun.



(** ** What a run can touch *)

Lemma total_returns {A} (m : M A) Φ past es a :
  total m Φ → m past = (es, inr a) → Φ es a.
Proof.
  intros Hm Heq. destruct (Hm past) as (es' & a' & Heq' & HΦ). congruence.
Qed.

Lemma silent_confined W R e : silent e → confined W R e.
Proof. intros He argv ->. by destruct (He argv). Qed.

Lemma reading_confined W R e : reading e = true → confined W R e.
Proof. intros He argv ->. left. by apply bool_decide_eq_true in He. Qed.

Section Confined.
Context (W : world) (R : gset string).

Local Abbreviation any := (λ _, True).

Lemma drain_node_confined s dry_run :
  s ∈ R → hoare (confined W R) any any (drain_node W (Text s) dry_run).
Proof.
  intros Hs. unfold drain_node. destruct dry_run.
  - hoare_walk ltac:(by intros ?).
  - apply hoare_seq; [hoare_walk ltac:(by intros ?)|intros _].
    apply hoare_try_except with (X' := any); [|hoare_walk ltac:(by intros ?)..].
    apply hoare_seq; [|hoare_walk ltac:(by intros ?)].
    apply hoare_spawn; [|done..].
    intros argv [= <-]. right. exists s. split; [done|]. by left.
Qed.

Lemma delete_node_confined s dry_run :
  s ∈ R → hoare (confined W R) any any (delete_node W (Text s) dry_run).
Proof.
  intros Hs. unfold delete_node. destruct dry_run.
  - hoare_walk ltac:(by intros ?).
  - apply hoare_seq; [hoare_walk ltac:(by intros ?)|intros _].
    apply hoare_try_except with (X' := any); [|hoare_walk ltac:(by intros ?)..].
    apply hoare_seq; [|hoare_walk ltac:(by intros ?)].
    apply hoare_spawn; [|done..].
    intros argv [= <-]. right. exists s. split; [done|]. right. by left.
Qed.

Lemma stop_k3s_confined s node_ip dry_run :
  s ∈ R → resolve s = Some node_ip →
  hoare (confined W R) any any (stop_k3s_on_node W node_ip dry_run).
Proof.
  intros Hs Hip. unfold stop_k3s_on_node.
  apply hoare_for_each; [|done]. intros cmd Hcmd. destruct dry_run.
  - hoare_walk ltac:(by intros ?).
  - apply hoare_seq; [hoare_walk ltac:(by intros ?)|intros _].
    apply hoare_try_except with (X' := any); [|hoare_walk ltac:(by intros ?)..].
    apply hoare_seq; [|hoare_walk ltac:(by intros ?)].
    apply hoare_spawn; [|done..].
    intros argv [= <-]. right. exists s. split; [done|]. right. right.
    by exists node_ip, cmd.
Qed.

Lemma process_nodes_confined node_ips dry_run :
  (∀ s, node_ips !! Text s = if decide (s ∈ R) then resolve s else None) →
  hoare (confined W R) any any (process_nodes W (texts R) node_ips dry_run).
Proof.
  intros Hips. unfold process_nodes.
  destruct (sorted_texts_list R) as (l & -> & Hmem & _).
  eapply hoare_bind with (Q1 := λ nodes, nodes = Text <$> l);
    [apply hoare_lift; [by intros ? [= <-]|done]|].
  intros nodes ->.
  apply hoare_seq; [|hoare_walk ltac:(by intros ?)].
  apply hoare_for_each; [|done].
  intros x (s & -> & Hs%Hmem)%list_elem_of_fmap. unfold process_node.
  apply hoare_seq; [hoare_walk ltac:(by intros ?)|intros _].
  apply hoare_seq; [by apply drain_node_confined|intros drained].
  apply hoare_seq; [hoare_walk ltac:(by intros ?)|intros _].
  apply hoare_seq; [by apply delete_node_confined|intros deleted].
  apply hoare_seq; [hoare_walk ltac:(by intros ?)|intros _].
  rewrite Hips, decide_True by done.
  destruct (resolve s) as [node_ip|] eqn:Hip; [|hoare_walk ltac:(by intros ?)].
  apply hoare_seq; [hoare_walk ltac:(by intros ?)|intros _].
  by eapply stop_k3s_confined.
Qed.

End Confined.

Section ConfinedRun.
Context (W : world) (E A : gset string).

Local Abbreviation any := (λ _, True).

Lemma reconcile_confined dry_run :
  hoare (confined W (A ∖ E)) any any
    (reconcile W (texts E) (texts A) dry_run).
Proof.
  unfold reconcile. rewrite texts_difference.
  destruct (decide _); [hoare_walk ltac:(by intros ?)|].
  apply hoare_seq; [hoare_walk ltac:(by intros ?)|intros shown].
  apply hoare_seq; [hoare_walk ltac:(by intros ?)|intros _].
  eapply hoare_bind.
  { apply hoare_returns with
      (Q' := λ node_ips, ∀ s, node_ips !! Text s
                              = if decide (s ∈ A ∖ E) then resolve s else None).
    - eapply hoare_weaken;
        [apply get_node_ip_silent|apply silent_confined|done..].
    - intros past es node_ips Heq.
      by destruct (total_returns _ _ _ _ _ (get_node_ip_plans (A ∖ E)) Heq)
        as (_ & _ & ?). }
  intros node_ips [_ Hips].
  apply hoare_seq.
  { eapply hoare_weaken;
      [apply show_plan_silent|apply silent_confined|done..]. }
  intros _. destruct dry_run.
  - apply hoare_seq; [hoare_walk ltac:(by intros ?)|intros _].
    by apply process_nodes_confined.
  - do 4 (apply hoare_seq; [hoare_walk ltac:(by intros ?)|intros _]).
    apply hoare_seq; [unfold input; hoare_walk ltac:(by intros ?)|].
    intros response. destruct (decide _); [hoare_walk ltac:(by intros ?)|].
    by apply process_nodes_confined.
Qed.

Lemma main_confined dry_run :
  declares W E → lists W A →
  hoare (confined W (A ∖ E)) any any (main W dry_run).
Proof.
  intros HE HA. unfold main.
  do 2 (apply hoare_seq; [hoare_walk ltac:(by intros ?)|intros _]).
  eapply hoare_bind.
  { apply hoare_returns with (Q' := λ expected_nodes, expected_nodes = texts E).
    - eapply hoare_weaken;
        [apply expected_from_config_reading|apply reading_confined|done..].
    - intros past es expected_nodes Heq.
      by destruct (total_returns _ _ _ _ _ (expected_from_config_reads W E HE) Heq)
        as (_ & _ & ?). }
  intros ? [_ ->].
  eapply hoare_bind.
  { apply hoare_returns with (Q' := λ actual_nodes, actual_nodes = texts A).
    - eapply hoare_weaken;
        [apply get_k3s_nodes_reading|apply reading_confined|done..].
    - intros past es actual_nodes Heq.
      by destruct (total_returns _ _ _ _ _ (get_k3s_nodes_reads W A HA) Heq). }
  intros ? [_ ->].
  destruct (decide _); [hoare_walk ltac:(by intros ?)|].
  apply hoare_seq; [hoare_walk ltac:(by intros ?)|intros shown].
  apply hoare_seq; [hoare_walk ltac:(by intros ?)|intros _].
  apply reconcile_confined.
Qed.

End ConfinedRun.

Lemma drain_argv_inj s s' : drain_argv s = drain_argv s' → s = s'.
Proof. by intros [=]. Qed.

Lemma delete_argv_inj s s' : delete_argv s = delete_argv s' → s = s'.
Proof. by intros [=]. Qed.

(** X2.  Only the removal set is touched.  Whatever the children do and whatever
    is answered, in a dry run or not, every process a run starts is the
    listing, the drain or the deletion of a node that is listed and not
    declared, or a remote command on the address the resolver gives such a
    node; no declared node is ever drained or deleted. *)
Theorem only_the_removal_set_is_touched (W : world) (dry_run : bool)
    (E A : gset string) :
  declares W E → lists W A →
  Forall (confined W (A ∖ E)) (run W dry_run).1
  ∧ (∀ s, s ∈ E →
       (Spawn (drain_argv s) ∉ (run W dry_run).1)
       ∧ (Spawn (delete_argv s) ∉ (run W dry_run).1)).
Proof.
  intros HE HA.
  destruct (run_hoare W dry_run _ _ _ (main_confined W E A dry_run HE HA))
    as [Hrun _].
  split; [done|]. rewrite Forall_forall in Hrun.
  intros s Hs. split; intros Hin;
    destruct (Hrun _ Hin _ eq_refl) as [?|(s' & Hs' & Hcase)]; try done;
    apply elem_of_difference in Hs' as [_ Hs'];
    destruct Hcase as [Heq|[Heq|(? & ? & _ & _ & ?)]]; try done.
  - by apply drain_argv_inj in Heq as <-.
  - by apply delete_argv_inj in Heq as <-.
Qed.

Lemma only_the_removal_set_is_touched_witness :
  Forall (confined (jammed (Some "y"))
            (list_to_set ["nuc3"; "nuc1"; "gpu"; "nuc2"]
             ∖ list_to_set ["nuc1"; "nuc2"]))
    (run (jammed (Some "y")) false).1
  ∧ (∀ s, s ∈ (list_to_set ["nuc1"; "nuc2"] : gset string) →
       (Spawn (drain_argv s) ∉ (run (jammed (Some "y")) false).1)
       ∧ (Spawn (delete_argv s) ∉ (run (jammed (Some "y")) false).1)).
Proof.
  apply (only_the_removal_set_is_touched (jammed (Some "y")) false
           (list_to_set ["nuc1"; "nuc2"])
           (list_to_set ["nuc3"; "nuc1"; "gpu"; "nuc2"])).
  - apply config_doc_declares. reflexivity.
  - apply nodes_doc_lists. reflexivity.
Defined.

(** ** How a run can end *)

Lemma outcome_after {A B} (m : M A) (k : A → M B) Φ1
    (Φ : list event → raised + B → Prop) :
  total m Φ1 →
  (∀ es a, Φ1 es a → outcome (k a) (λ es' r, Φ (es ++ es') r)) →
  outcome (m ≫= k) Φ.
Proof.
  intros Hm Hk past. destruct (Hm past) as (es & a & Heq & HΦ).
  unfold mbind, M_bind. rewrite Heq.
  specialize (Hk es a HΦ (past ++ es)).
  by destruct (k a (past ++ es)).
Qed.

Lemma outcome_print_then {B} m (k : unit → M B)
    (Φ : list event → raised + B → Prop) :
  outcome (k tt) (λ es r, Φ (Print m :: es) r) → outcome (print m ≫= k) Φ.
Proof.
  intros Hk. eapply outcome_after with (Φ1 := λ es _, es = [Print m]).
  - by apply total_print.
  - by intros ? [] ->.
Qed.

Lemma outcome_lift_then {A B} (r : exn + A) a (k : A → M B)
    (Φ : list event → raised + B → Prop) :
  r = inr a → outcome (k a) Φ → outcome (lift r ≫= k) Φ.
Proof.
  intros -> Hk. eapply outcome_after with (Φ1 := λ es a', es = [] ∧ a' = a).
  - by apply total_ret.
  - by intros ? ? [-> ->].
Qed.

Lemma outcome_raises {A B} (m : M A) (k : A → M B) x
    (Φ : list event → raised + B → Prop) :
  outcome m (λ es r, r = inl x ∧ Φ es (inl x)) → outcome (m ≫= k) Φ.
Proof.
  intros Hm past. destruct (Hm past) as [Heq HΦ].
  unfold mbind, M_bind. destruct (m past) as [es r]. simpl in *. by subst.
Qed.

Lemma outcome_weaken {A} (m : M A) (Φ Ψ : list event → raised + A → Prop) :
  outcome m Φ → (∀ es r, Φ es r → Ψ es r) → outcome m Ψ.
Proof. intros Hm HΦ past. apply HΦ, Hm. Qed.

Lemma run_outcome W dry_run (Φ : list event → raised + unit → Prop) :
  outcome (main W dry_run) Φ →
  ∃ r, Φ (run W dry_run).1 r
       ∧ (run W dry_run).2 = match r with
                             | inr _ => Returned
                             | inl (SystemExit c) => Exited c
                             | inl (Exc e) => Traceback e
                             end.
Proof.
  intros Hmain. specialize (Hmain []). unfold run.
  destruct (main W dry_run []) as [es r]. by exists r.
Qed.

Section Endings.
Context (W : world).

(** A run whose two node sets can be read, the actual one not empty, is
    its prelude followed by the reconciliation of the two sets, however
    that ends. *)
Lemma main_reconciles E A dry_run (Φ : list event → raised + unit → Prop) :
  declares W E → lists W A → A ≠ ∅ →
  outcome (reconcile W (texts E) (texts A) dry_run) Φ →
  outcome (main W dry_run) (λ es r,
    ∃ expected actual rest, es = prelude expected actual ++ rest ∧ Φ rest r).
Proof.
  intros HE HA Hne Hrec. unfold main. do 2 apply outcome_print_then.
  eapply outcome_after; [by apply expected_from_config_reads|].
  intros ? ? (expected & -> & ->).
  eapply outcome_after; [by apply get_k3s_nodes_reads|].
  intros ? ? (-> & ->).
  rewrite decide_False by by rewrite texts_empty_iff.
  destruct (sorted_texts A) as (actual & Hactual & _).
  eapply outcome_lift_then; [exact Hactual|]. apply outcome_print_then.
  eapply outcome_weaken; [exact Hrec|]. intros rest r ?.
  by exists expected, actual, rest.
Qed.

Lemma reconcile_end_of_input E A :
  A ∖ E ≠ ∅ → stdin_line W = None →
  outcome (reconcile W (texts E) (texts A) false) (λ es r,
    r = inl (Exc EOFError) ∧ before_loop false (size (A ∖ E)) es
    ∧ spawned es = []).
Proof.
  intros Hne Hl. unfold reconcile.
  rewrite texts_difference.
  rewrite decide_False by by rewrite texts_empty_iff.
  destruct (sorted_texts (A ∖ E)) as (shown & Hshown & _).
  eapply outcome_lift_then; [exact Hshown|]. apply outcome_print_then.
  eapply outcome_after; [apply get_node_ip_plans|].
  intros es1 node_ips (Hes1 & Hsilent1 & _).
  eapply outcome_after; [apply show_plan_plans|]. intros es2 [] [Hes2 Hsilent2].
  do 4 apply outcome_print_then.
  apply outcome_raises with (x := Exc EOFError).
  intros past. unfold input, mbind, M_bind, emit. rewrite Hl. simpl.
  split; [done|]. split_and!; [done| |].
  - exists shown, (es1 ++ es2). split; [by apply Forall_app|].
    rewrite size_texts. simpl. by rewrite <-!(assoc_L (++)).
  - spawned_simpl. by rewrite (spawned_silent es1), (spawned_silent es2).
Qed.

End Endings.

(** X3.  End of input at the prompt.  When there is something to remove and
    standard input is at its end, a run that is not a dry run shows the
    removal set, the plan and the warning, asks, and dies of the [EOFError]
    nobody catches, with status 1; it has started nothing but the
    listing. *)
Theorem end_of_input_at_the_prompt (W : world) (E A : gset string) :
  declares W E → lists W A → A ∖ E ≠ ∅ → stdin_line W = None →
  (∃ es, run W false
         = (es ++ warning (size (A ∖ E)) ++ [Ask], Traceback EOFError))
  ∧ exit_code (run W false).2 = 1
  ∧ spawned (run W false).1 = [list_nodes_argv].
Proof.
  intros HE HA Hne Hl.
  pose proof (difference_nonempty_l _ _ Hne) as HA'.
  destruct (run_outcome W false _
              (main_reconciles W E A false _ HE HA HA'
                 (reconcile_end_of_input W E A Hne Hl)))
    as (r & (expected & actual & rest & Hes & -> & (shown & plan & Hplan & ->)
             & Hspawned) & Hend).
  assert (run W false
          = (prelude expected actual
               ++ Print (MToRemove shown) :: plan
               ++ warning (size (A ∖ E)) ++ [Ask], Traceback EOFError)) as ->.
  { rewrite <-Hes, <-Hend. by destruct (run W false). }
  split_and!.
  - exists (prelude expected actual ++ Print (MToRemove shown) :: plan).
    by rewrite <-!(assoc_L (++)).
  - done.
  - cbn [fst]. by rewrite spawned_app, Hspawned.
Qed.

Lemma end_of_input_at_the_prompt_witness :
  (∃ es, run (stubborn None) false
         = (es ++ warning (size (list_to_set ["nuc3"; "nuc1"; "gpu"; "nuc2"]
                                 ∖ list_to_set ["nuc1"; "nuc2"] : gset string))
               ++ [Ask], Traceback EOFError))
  ∧ exit_code (run (stubborn None) false).2 = 1
  ∧ spawned (run (stubborn None) false).1 = [list_nodes_argv].
Proof.
  apply (end_of_input_at_the_prompt (stubborn None)
           (list_to_set ["nuc1"; "nuc2"])
           (list_to_set ["nuc3"; "nuc1"; "gpu"; "nuc2"])).
  - apply config_doc_declares. reflexivity.
  - apply nodes_doc_lists. reflexivity.
  - vm_compute. discriminate.
  - reflexivity.
Defined.

Section Failures.
Context (W : world).

Lemma get_k3s_nodes_raises e :
  listing_raises W e → e ≠ CalledProcessError → e ≠ JSONDecodeError →
  outcome (get_k3s_nodes W)
    (λ es r, r = inl (Exc e) ∧ es = [Spawn list_nodes_argv]).
Proof.
  intros Hlisting ?? past.
  unfold get_k3s_nodes, try_except, mbind, M_bind, emit. simpl.
  destruct Hlisting as [->|(doc & -> & Hdoc)]; simpl; rewrite ?Hdoc; simpl;
    by destruct e.
Qed.

Lemma drain_node_raises s e :
  (∀ past, child W past (drain_argv s) = Some e) → e ≠ CalledProcessError →
  outcome (drain_node W (Text s) false) (λ es r,
    r = inl (Exc e)
    ∧ es = [Print (MDraining (Text s)); Spawn (drain_argv s)]).
Proof.
  intros He ? past. unfold drain_node.
  unfold try_except, subprocess_run, spawn, mbind, M_bind, print, emit.
  simpl. fold (drain_argv s). rewrite He. by destruct e.
Qed.

Lemma reconcile_stopped E A l0 s rest e :
  stdin_line W = Some l0 → PyStr.lower l0 = "y" →
  sorted (texts (A ∖ E)) = inr (Text <$> s :: rest) →
  (∀ past, child W past (drain_argv s) = Some e) → e ≠ CalledProcessError →
  outcome (reconcile W (texts E) (texts A) false) (λ es r,
    r = inl (Exc e)
    ∧ ∃ es0, spawned es0 = []
             ∧ es = es0 ++ [Print (MProcessing (Text s));
                            Print (MDraining (Text s)); Spawn (drain_argv s)]).
Proof.
  intros Hl0 Hyes Hl He Hother. unfold reconcile.
  rewrite texts_difference.
  assert (A ∖ E ≠ ∅) as Hne.
  { intros Heq. rewrite Heq in Hl. discriminate Hl. }
  rewrite decide_False by by rewrite texts_empty_iff.
  eapply outcome_lift_then; [exact Hl|]. apply outcome_print_then.
  eapply outcome_after; [apply get_node_ip_plans|].
  intros es1 node_ips (_ & Hes1 & _).
  eapply outcome_after; [apply show_plan_plans|]. intros es2 [] [_ Hes2].
  do 4 apply outcome_print_then.
  eapply outcome_after with (Φ1 := λ es response, es = [Ask] ∧ response = l0).
  { intros past. exists [Ask], l0. split; [|done].
    unfold input, mbind, M_bind, emit. by rewrite Hl0. }
  intros ? ? [-> ->]. rewrite decide_False by by intros [].
  unfold process_nodes.
  eapply outcome_lift_then; [exact Hl|].
  cbn [fmap list_fmap for_each].
  do 2 apply outcome_raises with (x := Exc e).
  unfold process_node. apply outcome_print_then.
  apply outcome_raises with (x := Exc e).
  eapply outcome_weaken; [by apply drain_node_raises|].
  intros es r [-> ->]. do 4 (split; [done|]).
  eexists (Print (MToRemove _) :: es1 ++ es2 ++ warning _ ++ [Ask]).
  split.
  - spawned_simpl. by rewrite (spawned_silent es1), (spawned_silent es2).
  - simpl. by rewrite <-!(assoc_L (++)).
Qed.

End Failures.

(** X4.  A listing that raises anything else.  When the listing raises an
    exception that is neither [CalledProcessError] nor [JSONDecodeError]
    (the command cannot be started, or its output is JSON of another
    shape), nothing catches it: the run dies of it right after starting
    the listing, with status 1, and prints no diagnostic of its own. *)
Theorem listing_failure_is_not_caught (W : world) (dry_run : bool)
    (E : gset string) (e : exn) :
  declares W E → listing_raises W e →
  e ≠ CalledProcessError → e ≠ JSONDecodeError →
  (∃ expected,
     run W dry_run
     = ([Print MTitle; Print MRule; OpenConfig; Print (MExpected expected);
         Spawn list_nodes_argv], Traceback e))
  ∧ exit_code (run W dry_run).2 = 1.
Proof.
  intros HE Hlisting Hcalled Hjson.
  assert (outcome (main W dry_run) (λ es r,
            r = inl (Exc e)
            ∧ ∃ expected, es = [Print MTitle; Print MRule; OpenConfig;
                                Print (MExpected expected);
                                Spawn list_nodes_argv])) as Hmain.
  { unfold main. do 2 apply outcome_print_then.
    eapply outcome_after; [by apply expected_from_config_reads|].
    intros ? ? (expected & -> & ->).
    apply outcome_raises with (x := Exc e).
    eapply outcome_weaken; [by apply get_k3s_nodes_raises|].
    intros es r [-> ->]. do 2 (split; [done|]). by exists expected. }
  destruct (run_outcome W dry_run _ Hmain) as (r & (-> & expected & Hes) & Hend).
  assert (run W dry_run
          = ([Print MTitle; Print MRule; OpenConfig; Print (MExpected expected);
              Spawn list_nodes_argv], Traceback e)) as ->.
  { rewrite <-Hes, <-Hend. by destruct (run W dry_run). }
  split; [by exists expected|done].
Qed.

Lemma listing_failure_is_not_caught_witness :
  (∃ expected,
     run shapeless true
     = ([Print MTitle; Print MRule; OpenConfig; Print (MExpected expected);
         Spawn list_nodes_argv], Traceback KeyError))
  ∧ exit_code (run shapeless true).2 = 1.
Proof.
  apply (listing_failure_is_not_caught shapeless true
           (list_to_set ["nuc1"; "nuc2"]) KeyError).
  - apply config_doc_declares. reflexivity.
  - right. exists (JObj []). split; reflexivity.
  - discriminate.
  - discriminate.
Defined.

(** X5.  A child that cannot be started.  In a confirmed run, if the drain of
    the first node of the removal set raises anything but
    [CalledProcessError], the run dies of it there, with status 1: the node
    is not deleted, no later node is taken up, no summary is printed. *)
Theorem foreign_failure_stops_the_loop (W : world) (E A : gset string)
    (s : string) (rest : list string) (e : exn) :
  declares W E → lists W A → affirmative W →
  sorted (texts (A ∖ E)) = inr (Text <$> s :: rest) →
  (∀ past, child W past (drain_argv s) = Some e) → e ≠ CalledProcessError →
  (∃ es, run W false
         = (es ++ [Print (MProcessing (Text s)); Print (MDraining (Text s));
                   Spawn (drain_argv s)], Traceback e))
  ∧ exit_code (run W false).2 = 1
  ∧ spawned (run W false).1 = [list_nodes_argv; drain_argv s].
Proof.
  intros HE HA (l0 & Hl0 & Hyes) Hl He Hother.
  assert (A ≠ ∅) as HA'.
  { apply (difference_nonempty_l A E). intros Heq. rewrite Heq in Hl.
    discriminate Hl. }
  destruct (run_outcome W false _
              (main_reconciles W E A false _ HE HA HA'
                 (reconcile_stopped W E A l0 s rest e Hl0 Hyes Hl He Hother)))
    as (r & (expected & actual & ? & Hes & -> & es0 & Hes0 & ->) & Hend).
  assert (run W false
          = ((prelude expected actual ++ es0)
               ++ [Print (MProcessing (Text s)); Print (MDraining (Text s));
                   Spawn (drain_argv s)], Traceback e)) as ->.
  { rewrite <-(assoc_L (++)), <-Hes, <-Hend. by destruct (run W false). }
  split_and!; [by eexists|done|].
  cbn [fst]. rewrite !spawned_app, Hes0. done.
Qed.

Lemma foreign_failure_stops_the_loop_witness :
  (∃ es, run (jammed (Some "y")) false
         = (es ++ [Print (MProcessing (Text "gpu"));
                   Print (MDraining (Text "gpu"));
                   Spawn (drain_argv "gpu")], Traceback OSError))
  ∧ exit_code (run (jammed (Some "y")) false).2 = 1
  ∧ spawned (run (jammed (Some "y")) false).1
    = [list_nodes_argv; drain_argv "gpu"].
Proof.
  apply (foreign_failure_stops_the_loop (jammed (Some "y"))
           (list_to_set ["nuc1"; "nuc2"])
           (list_to_set ["nuc3"; "nuc1"; "gpu"; "nuc2"])
           "gpu" ["nuc3"] OSError).
  - apply config_doc_declares. reflexivity.
  - apply nodes_doc_lists. reflexivity.
  - exists "y". split; reflexivity.
  - vm_compute. reflexivity.
  - reflexivity.
  - discriminate.
Defined.

(** ** What a dry run depends on *)




(** ** What is shown before anything is done *)






Section Shown.
Context (W : world).



Lemma expected_from_config_shows E expected :
  declares W E → sorted (texts E) = inr expected →
  total (expected_from_config W) (λ es expected_nodes,
    es = [OpenConfig; Print (MExpected expected)] ∧ expected_nodes = texts E).
Proof.
  intros (config & Hconfig & Hnames) Hshown past.
  exists [OpenConfig; Print (MExpected expected)], (texts E). split; [|done].
  unfold expected_from_config, load_cluster_config, try_except.
  unfold mbind, M_bind, emit. rewrite Hconfig. simpl.
  rewrite Hnames. simpl. by rewrite Hshown.
Qed.



End Shown.



(** ** The order of the nodes *)

Lemma texts_ascending (l : list string) :
  Sorted name_le (Text <$> l) → Sorted (λ a b, String.leb a b = true) l.
Proof.
  induction l as [|a l IH]; [constructor|].
  cbn [fmap list_fmap]. intros [Hl Ha]%Sorted_inv.
  constructor; [by apply IH|].
  destruct l as [|b l]; constructor. by apply HdRel_inv in Ha.
Qed.

(** X8.  The order in which nodes are shown and taken up.  Sorting a set of
    text names never fails; it yields every name of the set exactly once,
    each name at most the next one in the order of code points: so [nuc10]
    comes before [nuc2]. *)
Theorem nodes_are_taken_in_code_point_order (R : gset string) :
  (∃ l, sorted (texts R) = inr (Text <$> l)
        ∧ Sorted (λ a b, String.leb a b = true) l
        ∧ NoDup l
        ∧ (∀ s, s ∈ l ↔ s ∈ R)
        ∧ length l = size R)
  ∧ sorted (texts {["nuc2"; "nuc10"; "nuc1"]})
    = inr [Text "nuc1"; Text "nuc10"; Text "nuc2"].
Proof.
  split; [|by vm_compute].
  destruct (sorted_texts_list R) as (l & Hl & Hmem & Hdup).
  exists l. split_and!; [done| |done|done|].
  - apply texts_ascending.
    unfold sorted in Hl. case_match; [|done]. injection Hl as <-.
    apply (Sorted_merge_sort _).
  - rewrite <-size_texts.
    unfold sorted in Hl. case_match; [|done]. injection Hl as Hl.
    rewrite <-(length_fmap Text), <-Hl, merge_sort_Permutation.
    done.
Qed.

(** ** The warnings of the resolver *)


(** ** Where a run can exit *)


Section Exits.
Context (W : world).

Local Abbreviation any := (λ _, True).
Local Abbreviation no_exit := (λ x : raised, ∀ c, x ≠ SystemExit c).



End Exits.


(** ** The diagnostics of the listing *)

Section Diagnostics.
Context (W : world).

Lemma main_without_listing E expected dry_run diagnostics :
  declares W E → sorted (texts E) = inr expected →
  total (get_k3s_nodes W)
    (λ es actual_nodes,
       es = Spawn list_nodes_argv :: diagnostics ∧ actual_nodes = ∅) →
  run W dry_run
  = ([Print MTitle; Print MRule; OpenConfig; Print (MExpected expected);
      Spawn list_nodes_argv] ++ diagnostics ++ [Print MNoNodes], Exited 1).
Proof.
  intros HE Hexpected Hlisting.
  assert (outcome (main W dry_run) (λ es r,
            r = inl (SystemExit 1)
            ∧ es = [Print MTitle; Print MRule; OpenConfig;
                    Print (MExpected expected); Spawn list_nodes_argv]
                   ++ diagnostics ++ [Print MNoNodes])) as Hmain.
  { unfold main. do 2 apply outcome_print_then.
    eapply outcome_after; [by apply expected_from_config_shows|].
    intros ? ? (-> & ->).
    eapply outcome_after; [exact Hlisting|]. intros ? ? (-> & ->).
    rewrite decide_True by done. by intros past. }
  destruct (run_outcome W dry_run _ Hmain) as (r & (-> & Hes) & Hend).
  rewrite <-Hes, <-Hend. by destruct (run W dry_run).
Qed.

End Diagnostics.

(** X11.  The failures of the listing that are handled.  With a readable
    membership file, a listing that exits with a failure status makes the
    run print that it failed to get the nodes, a listing whose output is
    not JSON makes it print that it failed to parse, and a listing without
    items makes it print neither; in all three cases the run then prints
    that no nodes were found and exits with status 1. *)
Theorem handled_listing_failures (W : world) (dry_run : bool)
    (E : gset string) :
  declares W E →
  ∃ expected,
    sorted (texts E) = inr expected
    ∧ (kubectl_nodes W = inl CalledProcessError →
       run W dry_run
       = ([Print MTitle; Print MRule; OpenConfig; Print (MExpected expected);
           Spawn list_nodes_argv; Print (MListFailed CalledProcessError);
           Print MNoNodes], Exited 1))
    ∧ (kubectl_nodes W = inr None →
       run W dry_run
       = ([Print MTitle; Print MRule; OpenConfig; Print (MExpected expected);
           Spawn list_nodes_argv; Print MParseFailed; Print MNoNodes],
          Exited 1))
    ∧ (lists W ∅ →
       run W dry_run
       = ([Print MTitle; Print MRule; OpenConfig; Print (MExpected expected);
           Spawn list_nodes_argv; Print MNoNodes], Exited 1)).
Proof.
  intros HE. destruct (sorted_texts E) as (expected & Hexpected & _).
  exists expected. split_and!; [done|..].
  - intros Hlisting.
    apply (main_without_listing W E expected dry_run
             [Print (MListFailed CalledProcessError)] HE Hexpected).
    intros past. eexists _, _. split; [|done].
    unfold get_k3s_nodes, try_except, mbind, M_bind, emit.
    by rewrite Hlisting.
  - intros Hlisting.
    apply (main_without_listing W E expected dry_run
             [Print MParseFailed] HE Hexpected).
    intros past. eexists _, _. split; [|done].
    unfold get_k3s_nodes, try_except, mbind, M_bind, emit.
    by rewrite Hlisting.
  - intros HA.
    apply (main_without_listing W E expected dry_run [] HE Hexpected).
    eapply total_weaken; [by apply get_k3s_nodes_reads|].
    by intros es actual_nodes [-> ->].
Qed.

Lemma handled_listing_failures_witness :
  ∃ expected,
    sorted (texts (list_to_set ["nuc1"; "nuc2"])) = inr expected
    ∧ (kubectl_nodes unreachable = inl CalledProcessError →
       run unreachable false
       = ([Print MTitle; Print MRule; OpenConfig; Print (MExpected expected);
           Spawn list_nodes_argv; Print (MListFailed CalledProcessError);
           Print MNoNodes], Exited 1))
    ∧ (kubectl_nodes unreachable = inr None →
       run unreachable false
       = ([Print MTitle; Print MRule; OpenConfig; Print (MExpected expected);
           Spawn list_nodes_argv; Print MParseFailed; Print MNoNodes],
          Exited 1))
    ∧ (lists unreachable ∅ →
       run unreachable false
       = ([Print MTitle; Print MRule; OpenConfig; Print (MExpected expected);
           Spawn list_nodes_argv; Print MNoNodes], Exited 1)).
Proof.
  apply (handled_listing_failures unreachable false
           (list_to_set ["nuc1"; "nuc2"])).
  apply config_doc_declares. reflexivity.
Defined.

(** ** The remote stop *)


